(** * Ordered queue consumer: offset ledger, lane pool, checkpoint driver

    Shallow embedding of
    [src/sentry/remote_subscriptions/consumers/queue_consumer.py].

    The Python classes mutate their fields and raise exceptions, so every
    method is a computation in a state-and-exception monad: it takes the
    object's state and gives back an outcome (a value or a raised
    exception) together with the state at that point.  Mutations made
    before a [raise] stay in the state, as in Python.

    Threads are not modelled: a method runs from its first to its last
    statement on the state it is given, and a lock is only the key it is
    stored under (taking it fails with [KeyError] when the key is absent
    and has no other sequential effect).  The one method that is also
    given in two parts is the turn of the commit loop, which holds no
    lock between reading the committable mapping and using it
    ([commit_after_read]).  Calls to [logger], [metrics]
    and [sentry_sdk] are left out: they are taken to return normally and
    they touch none of the state below.  The callbacks the module is
    given (decoder, grouping function, processing callback, commit
    function) are functions to outcomes: they may raise, they cannot
    reach the state of the caller.  [time.time()] is a sequence of
    readings in some fixed unit. *)

From stdpp Require Import gmap strings list fin_maps fin_sets.
From Stdlib Require Import ZArith Lia.

Local Open Scope Z_scope.

(** ** Exceptions and outcomes *)

(** The exception classes the module raises or lets through.  The last
    two stand for what the external callbacks may raise: any other
    subclass of [Exception], and a [BaseException] that is not an
    [Exception] ([SystemExit], [KeyboardInterrupt], ...). *)
Inductive exn : Type :=
  | UnassignedPartitionError
  | KeyError
  | IndexError
  | ZeroDivisionError
  | AssertionError
  | MessageRejected
  | QueueShutDown
  | QueueEmpty
  | OtherException (name : string)
  | OtherBaseException (name : string).

(** [isinstance(e, Exception)]: what an [except Exception:] clause
    catches. *)
Definition is_Exception (e : exn) : bool :=
  match e with
  | OtherBaseException _ => false
  | _ => true
  end.

Inductive outcome (A : Type) : Type :=
  | Ok (a : A)
  | Raise (e : exn).
Arguments Ok {A} a.
Arguments Raise {A} e.

(** A method on an object of state [S] returning an [A]. *)
Definition M (S A : Type) : Type := S -> outcome A * S.

Definition ret {S A} (a : A) : M S A := fun s => (Ok a, s).
Definition raise {S A} (e : exn) : M S A := fun s => (Raise e, s).
Definition bind {S A B} (m : M S A) (k : A -> M S B) : M S B :=
  fun s => match m s with
           | (Ok a, s') => k a s'
           | (Raise e, s') => (Raise e, s')
           end.
Definition get_state {S} : M S S := fun s => (Ok s, s).

(** [try: m except E: h] where [catches] says which exceptions the
    clause matches. *)
Definition try_except {S A} (m : M S A) (catches : exn -> bool)
    (h : exn -> M S A) : M S A :=
  fun s => match m s with
           | (Ok a, s') => (Ok a, s')
           | (Raise e, s') => if catches e then h e s' else (Raise e, s')
           end.

(** [try: m finally: f]. *)
Definition try_finally {S A} (m : M S A) (f : M S unit) : M S A :=
  fun s => match m s with
           | (r, s') => match f s' with
                        | (Ok _, s'') => (r, s'')
                        | (Raise e, s'') => (Raise e, s'')
                        end
           end.

Declare Scope py_scope.
Delimit Scope py_scope with py.
Notation "'let*' x := m 'in' k" := (bind m (fun x => k))
  (at level 10, x name, m at level 100, k at level 200, only parsing) : py_scope.
Notation "m ;; k" := (bind m (fun _ => k))
  (at level 100, k at level 200, only parsing, right associativity) : py_scope.

Definition is_UnassignedPartitionError (e : exn) : bool :=
  match e with UnassignedPartitionError => true | _ => false end.

Definition is_QueueShutDown (e : exn) : bool :=
  match e with QueueShutDown => true | _ => false end.

(** Calling an external callback whose behaviour is the outcome [r]:
    it cannot reach the caller's state. *)
Definition call {S A} (r : outcome A) : M S A := fun s => (r, s).

(** ** The offset tracker *)

Section Model.

(** [arroyo.types.Partition]: a hashable value used only as a key.
    [T] is the decoded payload, [Payload] the raw one. *)
Context {Partition : Type} `{Countable Partition}.
Context {T Payload : Type}.

(** A [defaultdict(set)]: reading a missing key yields the empty set
    and stores it under the key. *)
Definition dd_get (d : gmap Partition (gset Z)) (p : Partition) : gset Z :=
  default ∅ (d !! p).
Definition dd_touch (d : gmap Partition (gset Z)) (p : Partition)
    : gmap Partition (gset Z) :=
  match d !! p with
  | Some _ => d
  | None => <[p := ∅]> d
  end.

(** [partition_locks] maps each assigned partition to its lock; the
    lock object has no sequential content, so the field is the key
    set. *)
Record OffsetTracker : Type := mkTracker {
  all_offsets : gmap Partition (gset Z);
  outstanding : gmap Partition (gset Z);
  last_committed : gmap Partition Z;
  partition_locks : gset Partition
}.

(** [OffsetTracker.__init__] *)
Definition OffsetTracker_init : OffsetTracker :=
  mkTracker ∅ ∅ ∅ ∅.

Definition set_all_offsets (f : gmap Partition (gset Z) -> gmap Partition (gset Z))
    : M OffsetTracker unit :=
  fun st => (Ok tt, mkTracker (f (all_offsets st)) (outstanding st)
                              (last_committed st) (partition_locks st)).
Definition set_outstanding (f : gmap Partition (gset Z) -> gmap Partition (gset Z))
    : M OffsetTracker unit :=
  fun st => (Ok tt, mkTracker (all_offsets st) (f (outstanding st))
                              (last_committed st) (partition_locks st)).
Definition set_last_committed (f : gmap Partition Z -> gmap Partition Z)
    : M OffsetTracker unit :=
  fun st => (Ok tt, mkTracker (all_offsets st) (outstanding st)
                              (f (last_committed st)) (partition_locks st)).

(** [self.partition_locks[partition]], a plain [dict] lookup. *)
Definition _get_partition_lock (partition : Partition) : M OffsetTracker unit :=
  fun st => if decide (partition ∈ partition_locks st)
            then (Ok tt, st) else (Raise KeyError, st).

Definition add_offset (partition : Partition) (offset : Z) : M OffsetTracker unit :=
  (let* st := get_state in
   if decide (partition ∉ partition_locks st) then raise UnassignedPartitionError
   else
     _get_partition_lock partition ;;
     set_all_offsets (fun d => <[partition := {[offset]} ∪ dd_get d partition]> d) ;;
     set_outstanding (fun d => <[partition := {[offset]} ∪ dd_get d partition]> d))%py.

Definition complete_offset (partition : Partition) (offset : Z) : M OffsetTracker unit :=
  (let* st := get_state in
   if decide (partition ∉ partition_locks st) then ret tt
   else
     _get_partition_lock partition ;;
     set_outstanding (fun d => <[partition := dd_get d partition ∖ {[offset]}]> d))%py.

(** The inner [for offset in range(start, max_offset + 1)] loop, with
    [n] the number of values the range still has to yield. *)
Fixpoint scan (all_offsets_p outstanding_p : gset Z) (offset : Z) (n : nat)
    (highest_committable : Z) : Z :=
  match n with
  | O => highest_committable
  | S n' =>
      if decide (offset ∈ all_offsets_p ∧ offset ∉ outstanding_p)
      then scan all_offsets_p outstanding_p (offset + 1) n' offset
      else highest_committable
  end.

(** The body of the outer loop once the two sets and [last_committed]
    are read: [None] is "no entry for this partition". *)
Definition committable_for (all_offsets_p outstanding_p : gset Z)
    (last_committed_p : Z) : option Z :=
  match elements all_offsets_p with
  | [] => None
  | x :: l =>
      let min_offset := foldr Z.min x l in
      let max_offset := foldr Z.max x l in
      let start := Z.max (last_committed_p + 1) min_offset in
      let highest_committable :=
        scan all_offsets_p outstanding_p start
             (Z.to_nat (max_offset + 1 - start)) last_committed_p in
      if decide (highest_committable > last_committed_p)
      then Some highest_committable else None
  end.

(** [min(all_offsets)] on its own, to speak about where the scan starts:
    [None] for the empty set. *)
Definition min_admitted (A : gset Z) : option Z :=
  match elements A with
  | [] => None
  | x :: l => Some (foldr Z.min x l)
  end.

(** [self.last_committed.get(partition, -1)] *)
Definition last_committed_of (st : OffsetTracker) (p : Partition) : Z :=
  default (-1) (last_committed st !! p).

(** The outer loop over [list(self.all_offsets.keys())]. *)
Fixpoint gco_loop (ks : list Partition) (committable : gmap Partition Z)
    : M OffsetTracker (gmap Partition Z) :=
  match ks with
  | [] => ret committable
  | partition :: ks' =>
      (_get_partition_lock partition ;;
       set_all_offsets (fun d => dd_touch d partition) ;;
       let* st := get_state in
       if decide (dd_get (all_offsets st) partition = ∅) then gco_loop ks' committable
       else
         set_outstanding (fun d => dd_touch d partition) ;;
         match committable_for (dd_get (all_offsets st) partition)
                               (dd_get (outstanding st) partition)
                               (last_committed_of st partition) with
         | Some o => gco_loop ks' (<[partition := o]> committable)
         | None => gco_loop ks' committable
         end)%py
  end.

Definition get_committable_offsets : M OffsetTracker (gmap Partition Z) :=
  (let* st := get_state in
   gco_loop (map fst (map_to_list (all_offsets st))) ∅)%py.

Definition mark_committed (partition : Partition) (offset : Z) : M OffsetTracker unit :=
  (_get_partition_lock partition ;;
   set_last_committed (fun d => <[partition := offset]> d) ;;
   set_all_offsets (fun d =>
     <[partition := filter (fun o => o > offset) (dd_get d partition)]> d))%py.

Definition clear : M OffsetTracker unit :=
  fun _ => (Ok tt, OffsetTracker_init).

Definition update_assignments (partitions : gset Partition) : M OffsetTracker unit :=
  (clear ;;
   fun st => (Ok tt, mkTracker (all_offsets st) (outstanding st)
                               (last_committed st) partitions))%py.


(** ** Vocabulary for statements about the tracker *)

(** What [get_committable_offsets] has to say about partition [p] in
    state [st]: the loop body on the sets and the checkpoint of [p]. *)
Definition committable_at (st : OffsetTracker) (p : Partition) : option Z :=
  committable_for (dd_get (all_offsets st) p) (dd_get (outstanding st) p)
                  (last_committed_of st p).

(** Two states a client cannot tell apart: they differ at most in keys
    of the [defaultdict]s that hold the empty set. *)
Definition same_view (st st' : OffsetTracker) : Prop :=
  (∀ p, dd_get (all_offsets st) p = dd_get (all_offsets st') p)
  ∧ (∀ p, dd_get (outstanding st) p = dd_get (outstanding st') p)
  ∧ last_committed st = last_committed st'
  ∧ partition_locks st = partition_locks st'.

(** Every key of [all_offsets] has a lock. *)
Definition tracked_assigned (st : OffsetTracker) : Prop :=
  ∀ p, is_Some (all_offsets st !! p) → p ∈ partition_locks st.

(** [outstanding[p] ⊆ all_offsets[p]] for every partition. *)
Definition ledger_inv (st : OffsetTracker) : Prop :=
  ∀ p, dd_get (outstanding st) p ⊆ dd_get (all_offsets st) p.

(** [mark_committed(p, o)] leaves no outstanding offset behind: the
    partition has no lock (the call then raises), or every outstanding
    offset of [p] is above [o]. *)
Definition mark_keeps_outstanding (st : OffsetTracker) (p : Partition) (o : Z) : Prop :=
  p ∉ partition_locks st ∨ ∀ x, x ∈ dd_get (outstanding st) p → o < x.

(** ** Messages, work items and lane queues *)

(** [Message.value] is a [BrokerValue], which carries the partition and
    the offset, or some other value (what the [assert isinstance] in
    [submit] rules out). *)
Inductive MessageValue : Type :=
  | BrokerValue (partition : Partition) (offset : Z)
  | PlainValue.

Record Message : Type := mkMessage {
  payload : Payload;
  value : MessageValue
}.

Record WorkItem : Type := mkWorkItem {
  partition : Partition;
  offset : Z;
  result : T;
  message : Message
}.

(** An unbounded [queue.Queue] with the [shutdown] flag of Python 3.13. *)
Record Queue : Type := mkQueue {
  items : list WorkItem;
  is_shutdown : bool
}.

Definition Queue_init : Queue := mkQueue [] false.

Definition qsize (q : Queue) : Z := Z.of_nat (length (items q)).

(** [q.empty()] *)
Definition queue_empty (q : Queue) : bool := bool_decide (items q = []).

(** [q.put(item)] *)
Definition queue_put (it : WorkItem) : M Queue unit :=
  fun q => if is_shutdown q then (Raise QueueShutDown, q)
           else (Ok tt, mkQueue (items q ++ [it]) (is_shutdown q)).

(** [q.get()]: [Ok None] stands for the call blocking on an empty queue
    that is still open. *)
Definition queue_get : M Queue (option WorkItem) :=
  fun q => match items q with
           | it :: rest => (Ok (Some it), mkQueue rest (is_shutdown q))
           | [] => if is_shutdown q then (Raise QueueShutDown, q) else (Ok None, q)
           end.

(** [q.get_nowait()] *)
Definition queue_get_nowait : M Queue WorkItem :=
  fun q => match items q with
           | it :: rest => (Ok it, mkQueue rest (is_shutdown q))
           | [] => if is_shutdown q then (Raise QueueShutDown, q) else (Raise QueueEmpty, q)
           end.

(** [q.shutdown(immediate=False)] *)
Definition queue_shutdown : M Queue unit :=
  fun q => (Ok tt, mkQueue (items q) true).

(** ** The pool *)

(** What the code does to its collaborators, in order.  The log is not
    a field of the Python object: it records the calls so that
    statements can speak about them.  [EvMarkCommitted] holds, next to
    the arguments of the call, the [last_committed] of the partition at
    the time of the call ([-1] when there is none). *)
Inductive event : Type :=
  | EvDequeued (worker_id : nat) (it : WorkItem)
  | EvProcessed (worker_id : nat) (it : WorkItem)
  | EvCompleted (worker_id : nat) (it : WorkItem)
  | EvDiscarded (it : WorkItem)
  | EvCommitted (committable : gmap Partition Z)
  | EvMarkCommitted (p : Partition) (o : Z) (previous : Z).

Record FixedQueuePool : Type := mkPool {
  result_processor : string -> T -> outcome unit;
  identifier : string;
  num_queues : Z;
  offset_tracker : OffsetTracker;
  queues : list Queue;
  commit_function : option (gmap Partition Z -> outcome unit);
  log : list event
}.

Definition with_tracker (pool : FixedQueuePool) (t : OffsetTracker) : FixedQueuePool :=
  mkPool (result_processor pool) (identifier pool) (num_queues pool) t
         (queues pool) (commit_function pool) (log pool).
Definition with_queues (pool : FixedQueuePool) (qs : list Queue) : FixedQueuePool :=
  mkPool (result_processor pool) (identifier pool) (num_queues pool)
         (offset_tracker pool) qs (commit_function pool) (log pool).
Definition with_commit_function (pool : FixedQueuePool)
    (f : option (gmap Partition Z -> outcome unit)) : FixedQueuePool :=
  mkPool (result_processor pool) (identifier pool) (num_queues pool)
         (offset_tracker pool) (queues pool) f (log pool).
Definition with_log (pool : FixedQueuePool) (l : list event) : FixedQueuePool :=
  mkPool (result_processor pool) (identifier pool) (num_queues pool)
         (offset_tracker pool) (queues pool) (commit_function pool) l.

(** Run a tracker method on [self.offset_tracker]. *)
Definition on_tracker {A} (m : M OffsetTracker A) : M FixedQueuePool A :=
  fun pool => match m (offset_tracker pool) with
              | (r, t) => (r, with_tracker pool t)
              end.

(** Run a queue method on the queue object stored at index [i]. *)
Definition on_queue {A} (i : nat) (m : M Queue A) : M FixedQueuePool A :=
  fun pool => match queues pool !! i with
              | Some q => match m q with
                          | (r, q') => (r, with_queues pool (<[i := q']> (queues pool)))
                          end
              | None => (Raise IndexError, pool)
              end.

Definition emit (ev : event) : M FixedQueuePool unit :=
  fun pool => (Ok tt, with_log pool (log pool ++ [ev])).

(** [FixedQueuePool.__init__]: [range(num_queues)] queues, no commit
    function yet. *)
Definition FixedQueuePool_init (result_processor : string -> T -> outcome unit)
    (identifier : string) (num_queues : Z) : FixedQueuePool :=
  mkPool result_processor identifier num_queues OffsetTracker_init
         (replicate (Z.to_nat num_queues) Queue_init) None [].

(** *** Lane workers *)

(** How [OrderedQueueWorker.run] leaves off when it does not raise:
    the loop ended ([self.shutdown] or [queue.ShutDown]), or the worker
    sits in [get()] on an empty open queue. *)
Inductive worker_exit : Type :=
  | Stopped
  | Blocked.

(** [OrderedQueueWorker.run] of the worker [worker_id], whose
    [work_queue] is the pool's queue of that index.  [shutdown] is the
    worker's flag, which only another thread sets.  Each turn of the
    loop takes one unit of [fuel]; [None] is "fuel used up". *)
Fixpoint worker_run (fuel : nat) (worker_id : nat) (shutdown : bool)
    : M FixedQueuePool (option worker_exit) :=
  match fuel with
  | O => ret None
  | S fuel' =>
      if shutdown then ret (Some Stopped)
      else
        (let* got :=
           try_except
             (let* x := on_queue worker_id queue_get in ret (Some x))
             is_QueueShutDown (fun _ => ret None) in
         match got with
         | None => ret (Some Stopped)
         | Some None => ret (Some Blocked)
         | Some (Some work_item) =>
             emit (EvDequeued worker_id work_item) ;;
             try_finally
               (try_except
                  (emit (EvProcessed worker_id work_item) ;;
                   let* pool := get_state in
                   call (result_processor pool (identifier pool) (result work_item)))
                  is_Exception (fun _ => ret tt))
               (on_tracker (complete_offset (partition work_item) (offset work_item)) ;;
                emit (EvCompleted worker_id work_item)) ;;
             worker_run fuel' worker_id shutdown
         end)%py
  end.

(** *** The commit loop *)

(** [for partition, offset in committable.items(): mark_committed(...)] *)
Fixpoint mark_all (l : list (Partition * Z)) : M FixedQueuePool unit :=
  match l with
  | [] => ret tt
  | (p, o) :: l' =>
      (let* pool := get_state in
       emit (EvMarkCommitted p o (last_committed_of (offset_tracker pool) p)) ;;
       on_tracker (mark_committed p o) ;;
       mark_all l')%py
  end.

(** One turn of [_commit_loop] with the shutdown event not set. *)
Definition commit_iteration : M FixedQueuePool unit :=
  try_except
    (let* committable := on_tracker get_committable_offsets in
     let* pool := get_state in
     match commit_function pool with
     | Some f =>
         if decide (committable = ∅) then ret tt
         else
           emit (EvCommitted committable) ;;
           call (f committable) ;;
           mark_all (map_to_list committable)
     | None => ret tt
     end)%py
    is_Exception (fun _ => ret tt).

(** *** Submission *)

(** Python's builtin [hash] on strings. *)
Context (hash : string -> Z).

(** [hash(group_key) % self.num_queues] *)
Definition get_queue_for_group (group_key : string) : M FixedQueuePool Z :=
  (let* pool := get_state in
   if decide (num_queues pool = 0) then raise ZeroDivisionError
   else ret (hash group_key `mod` num_queues pool))%py.

(** Python list indexing: negative indices count from the end. *)
Definition py_index (len : nat) (i : Z) : option nat :=
  if decide (0 <= i < Z.of_nat len) then Some (Z.to_nat i)
  else if decide (- Z.of_nat len <= i < 0) then Some (Z.to_nat (Z.of_nat len + i))
  else None.

Definition FixedQueuePool_submit (group_key : string) (work_item : WorkItem)
    : M FixedQueuePool unit :=
  (let* tracked :=
     try_except
       (on_tracker (add_offset (partition work_item) (offset work_item)) ;; ret true)
       is_UnassignedPartitionError (fun _ => ret false) in
   if tracked : bool then
     let* queue_index := get_queue_for_group group_key in
     let* pool := get_state in
     match py_index (length (queues pool)) queue_index with
     | Some i => on_queue i (queue_put work_item)
     | None => raise IndexError
     end
   else ret tt)%py.

(** *** Flushing *)

Definition queue_depths (pool : FixedQueuePool) : list Z := map qsize (queues pool).

(** [get_stats()["total_items"]] *)
Definition total_items (pool : FixedQueuePool) : Z := foldr Z.add 0 (queue_depths pool).

(** The [while] loop of [wait_until_empty].  [clock k] is what the
    [k]-th call of [time.time()] returns, counted from the call that
    sets [start_time]. *)
Fixpoint wait_loop (fuel : nat) (clock : nat -> Z) (k : nat) (start_time timeout : Z)
    : M FixedQueuePool (option bool) :=
  match fuel with
  | O => ret None
  | S fuel' =>
      if decide (clock k - start_time < timeout) then
        (let* pool := get_state in
         if decide (total_items pool = 0) then ret (Some true)
         else wait_loop fuel' clock (S k) start_time timeout)%py
      else ret (Some false)
  end.

Definition wait_until_empty (fuel : nat) (clock : nat -> Z) (timeout : Z)
    : M FixedQueuePool (option bool) :=
  wait_loop fuel clock 1 (clock O) timeout.

(** [while not q.empty(): ... q.get_nowait() ...] on the queue of
    index [i]; the result is [cleared_count]. *)
Fixpoint drain_queue (fuel : nat) (i : nat) (cleared_count : Z) : M FixedQueuePool Z :=
  match fuel with
  | O => ret cleared_count
  | S fuel' =>
      (let* is_empty := on_queue i (fun q => (Ok (queue_empty q), q)) in
       if is_empty : bool then ret cleared_count
       else
         let* r :=
           try_except
             (let* it := on_queue i queue_get_nowait in
              emit (EvDiscarded it) ;; ret (Some (cleared_count + 1)))
             is_Exception
             (fun e => match e with
                       | QueueEmpty => ret None
                       | _ => ret (Some cleared_count)
                       end) in
         match r with
         | None => ret cleared_count
         | Some c => drain_queue fuel' i c
         end)%py
  end.

(** [for q in self.queues: ...]; each queue gets one more turn than
    it has items, the last turn finding it empty. *)
Fixpoint drain_queues (idxs : list nat) (cleared_count : Z) : M FixedQueuePool Z :=
  match idxs with
  | [] => ret cleared_count
  | i :: idxs' =>
      (let* pool := get_state in
       let* c := drain_queue (S (length (items (default Queue_init (queues pool !! i)))))
                             i cleared_count in
       drain_queues idxs' c)%py
  end.

(** [flush]: [None] is "the wait did not end within [fuel]". *)
Definition flush (fuel : nat) (clock : nat -> Z) (timeout : option Z)
    : M FixedQueuePool (option bool) :=
  (let* waited :=
     match timeout with
     | None => ret (Some false)
     | Some t => wait_until_empty fuel clock t
     end in
   match waited with
   | None => ret None
   | Some success =>
       (if success : bool then ret 0
        else let* pool := get_state in
             drain_queues (seq 0 (length (queues pool))) 0) ;;
       on_tracker clear ;;
       ret (Some success)
   end)%py.

Definition FixedQueuePool_update_assignments (partitions : gset Partition)
    (commit_function : gmap Partition Z -> outcome unit) : M FixedQueuePool unit :=
  (on_tracker (update_assignments partitions) ;;
   fun pool => (Ok tt, with_commit_function pool (Some commit_function)))%py.

(** ** The processing strategy *)

Record Strategy : Type := mkStrategy {
  queue_pool : FixedQueuePool;
  decoder : Payload -> outcome (option T);
  grouping_fn : T -> outcome string;
  shutdown_event : bool
}.

Definition on_pool {A} (m : M FixedQueuePool A) : M Strategy A :=
  fun self => match m (queue_pool self) with
              | (r, pool) => (r, mkStrategy pool (decoder self) (grouping_fn self)
                                            (shutdown_event self))
              end.

(** [SimpleQueueProcessingStrategy.__init__] *)
Definition Strategy_init (queue_pool : FixedQueuePool)
    (decoder : Payload -> outcome (option T)) (grouping_fn : T -> outcome string)
    (commit_function : gmap Partition Z -> outcome unit)
    (partitions : gset Partition) : Strategy :=
  mkStrategy
    (snd (FixedQueuePool_update_assignments partitions commit_function queue_pool))
    decoder grouping_fn false.

Definition Strategy_submit (message : Message) : M Strategy unit :=
  (let* self := get_state in
   if shutdown_event self then raise MessageRejected
   else
     try_except
       (let* result := call (decoder self (payload message)) in
        match value message with
        | PlainValue => raise AssertionError
        | BrokerValue partition offset =>
            match result with
            | None =>
                try_except
                  (on_pool (on_tracker (add_offset partition offset)) ;;
                   on_pool (on_tracker (complete_offset partition offset)))
                  is_UnassignedPartitionError (fun _ => ret tt)
            | Some result =>
                let* group_key := call (grouping_fn self result) in
                on_pool (FixedQueuePool_submit group_key
                           (mkWorkItem partition offset result message))
            end
        end)
       is_Exception
       (fun _ =>
          match value message with
          | BrokerValue partition offset =>
              on_pool (on_tracker (add_offset partition offset)) ;;
              on_pool (on_tracker (complete_offset partition offset))
          | PlainValue => ret tt
          end))%py.

(** [terminate]: set the event, then [flush(timeout=0)].  The method
    has no [return]: what [flush] reports is dropped and the caller
    gets Python's [None], here [tt].  The [option] only says whether the
    call came back within the fuel: [None] is the wait inside [flush]
    outlasting it. *)
Definition Strategy_terminate (fuel : nat) (clock : nat -> Z) : M Strategy (option unit) :=
  ((fun self => (Ok tt, mkStrategy (queue_pool self) (decoder self) (grouping_fn self) true)) ;;
   let* flushed := on_pool (flush fuel clock (Some 0)) in
   ret (match flushed with Some _ => Some tt | None => None end))%py.

(** ** Vocabulary for statements about the pool *)

(** What a worker does for one item, in order. *)
Definition worker_events (worker_id : nat) (its : list WorkItem) : list event :=
  its ≫= (fun it => [EvDequeued worker_id it; EvProcessed worker_id it;
                      EvCompleted worker_id it]).

(** [complete_offset] for each item in turn. *)
Definition complete_all (its : list WorkItem) (t : OffsetTracker) : OffsetTracker :=
  foldl (fun t it => snd (complete_offset (partition it) (offset it) t)) t its.

(** The processing callback may fail on the items, but only with
    exceptions of class [Exception]. *)
Definition raises_only_Exception (pool : FixedQueuePool) (its : list WorkItem) : Prop :=
  ∀ it e, it ∈ its →
          result_processor pool (identifier pool) (result it) = Raise e →
          is_Exception e = true.

(** The queue with its items gone. *)
Definition emptied (q : Queue) : Queue := mkQueue [] (is_shutdown q).

(** A logged [mark_committed] call whose value exceeds the checkpoint
    the partition had when the call was made. *)
Definition mark_increases (ev : event) : Prop :=
  match ev with
  | EvMarkCommitted _ o previous => previous < o
  | _ => True
  end.

(** An event that hands nothing to the commit function. *)
Definition not_committed (ev : event) : Prop :=
  match ev with
  | EvCommitted _ => False
  | _ => True
  end.

(** [join]: [flush(timeout=timeout or 0)], with the result of [flush]
    dropped as in [terminate]: the method has no [return]. *)
Definition Strategy_join (fuel : nat) (clock : nat -> Z) (timeout : option Z)
    : M Strategy (option unit) :=
  (let* flushed := on_pool (flush fuel clock (Some (default 0 timeout))) in
   ret (match flushed with Some _ => Some tt | None => None end))%py.

(** A turn of [_commit_loop] from the point where it holds the mapping
    [get_committable_offsets] returned (line 234): the test, the call
    of the commit function and the [mark_committed] loop of lines 236
    to 245, under the turn's [except Exception].  The commit loop runs
    on a thread of its own and takes no lock across the turn, so other
    threads' calls can fall between the read and this part. *)
Definition commit_after_read (committable : gmap Partition Z) : M FixedQueuePool unit :=
  try_except
    (let* pool := get_state in
     match commit_function pool with
     | Some f =>
         if decide (committable = ∅) then ret tt
         else
           emit (EvCommitted committable) ;;
           call (f committable) ;;
           mark_all (map_to_list committable)
     | None => ret tt
     end)%py
    is_Exception (fun _ => ret tt).

(** ** Sequences of calls *)

(** The calls a client can make on the tracker.  A call that raises
    leaves the state it had reached; the sequence goes on from there. *)
Inductive tracker_op : Type :=
  | OpAddOffset (p : Partition) (o : Z)
  | OpCompleteOffset (p : Partition) (o : Z)
  | OpGetCommittableOffsets
  | OpMarkCommitted (p : Partition) (o : Z)
  | OpUpdateAssignments (ps : gset Partition)
  | OpClear.

Definition run_op (op : tracker_op) (st : OffsetTracker) : OffsetTracker :=
  match op with
  | OpAddOffset p o => snd (add_offset p o st)
  | OpCompleteOffset p o => snd (complete_offset p o st)
  | OpGetCommittableOffsets => snd (get_committable_offsets st)
  | OpMarkCommitted p o => snd (mark_committed p o st)
  | OpUpdateAssignments ps => snd (update_assignments ps st)
  | OpClear => snd (clear st)
  end.

Definition run_ops (ops : list tracker_op) (st : OffsetTracker) : OffsetTracker :=
  foldl (fun s op => run_op op s) st ops.

(** A sequence in which every [mark_committed] keeps the outstanding
    offsets, checked at the state each call is made in. *)
Definition op_keeps_outstanding (op : tracker_op) (st : OffsetTracker) : Prop :=
  match op with
  | OpMarkCommitted p o => mark_keeps_outstanding st p o
  | _ => True
  end.

Fixpoint ops_keep_outstanding (ops : list tracker_op) (st : OffsetTracker) : Prop :=
  match ops with
  | [] => True
  | op :: ops' => op_keeps_outstanding op st ∧ ops_keep_outstanding ops' (run_op op st)
  end.

(** What the threads of one pool do between two rebalances: the ingress
    submits, a worker runs, the commit loop takes a turn. *)
Inductive pool_op : Type :=
  | PoolSubmit (group_key : string) (work_item : WorkItem)
  | PoolWorkerRun (fuel : nat) (worker_id : nat) (shutdown : bool)
  | PoolCommitIteration.

Definition run_pool_op (op : pool_op) (pool : FixedQueuePool) : FixedQueuePool :=
  match op with
  | PoolSubmit group_key work_item => snd (FixedQueuePool_submit group_key work_item pool)
  | PoolWorkerRun fuel worker_id shutdown => snd (worker_run fuel worker_id shutdown pool)
  | PoolCommitIteration => snd (commit_iteration pool)
  end.

Definition run_pool_ops (ops : list pool_op) (pool : FixedQueuePool) : FixedQueuePool :=
  foldl (fun s op => run_pool_op op s) pool ops.

(** ** The remaining methods *)

(** [get_stats]: the depth of every queue and their sum. *)
Definition get_stats (pool : FixedQueuePool) : list Z * Z :=
  (queue_depths pool, total_items pool).

(** [close]: set the shutdown event. *)
Definition Strategy_close : M Strategy unit :=
  fun self => (Ok tt, mkStrategy (queue_pool self) (decoder self) (grouping_fn self) true).

(** ** More vocabulary *)

(** The lane [get_queue_for_group] picks, as a list position. *)
Definition lane_of (pool : FixedQueuePool) (group_key : string) : nat :=
  Z.to_nat (hash group_key `mod` num_queues pool).

(** A pool as [__init__] builds it: a positive number of lanes and one
    queue for each. *)
Definition pool_wf (pool : FixedQueuePool) : Prop :=
  0 < num_queues pool ∧ length (queues pool) = Z.to_nat (num_queues pool).

(** No queue has been shut down. *)
Definition lanes_open (pool : FixedQueuePool) : Prop :=
  ∀ i q, queues pool !! i = Some q → is_shutdown q = false.

(** Of the submissions [subs], in order, the items that go to lane [i]:
    those whose partition is assigned and whose key hashes to [i]. *)
Definition accepted_for (pool : FixedQueuePool) (i : nat)
    (subs : list (string * WorkItem)) : list WorkItem :=
  map snd (filter (fun s => partition (snd s) ∈ partition_locks (offset_tracker pool)
                            ∧ lane_of pool (fst s) = i) subs).

Definition submit_all (subs : list (string * WorkItem)) : list pool_op :=
  map (fun s => PoolSubmit (fst s) (snd s)) subs.

(** Calls of the ingress side only: [add_offset] and [complete_offset]. *)
Definition is_ingress_op (op : tracker_op) : Prop :=
  match op with
  | OpAddOffset _ _ | OpCompleteOffset _ _ => True
  | _ => False
  end.

End Model.

(** ** A small concrete pool

    Partitions are numbers, payloads are numbers, every group key
    hashes to 0.  The pool has one lane; partition 0 is assigned and
    two items of partition 0, offsets 5 and 6, are queued. *)

Definition ex_hash : string -> Z := fun _ => 0.

Definition ex_message (p : nat) (o : Z) : @Message nat nat :=
  mkMessage 0%nat (BrokerValue p o).

Definition ex_item (p : nat) (o : Z) (res : nat) : @WorkItem nat nat nat :=
  mkWorkItem p o res (ex_message p o).

(** A callback that fails with [e] on payload 1 and succeeds
    otherwise. *)
Definition ex_processor (e : exn) : string -> nat -> outcome unit :=
  fun _ res => if decide (res = 1%nat) then Raise e else Ok tt.

Definition ex_commit : gmap nat Z -> outcome unit := fun _ => Ok tt.

Definition ex_pool (e : exn) : @FixedQueuePool nat _ _ nat nat :=
  run_pool_ops ex_hash
    [PoolSubmit "a" (ex_item 0 5 1); PoolSubmit "a" (ex_item 0 6 2)]
    (snd (FixedQueuePool_update_assignments {[0%nat]} ex_commit
            (FixedQueuePool_init (ex_processor e) "uptime" 1))).

(** A strategy over the pool whose decoder fails with [e] on payload 0. *)
Definition ex_strategy (e : exn) : @Strategy nat _ _ nat nat :=
  mkStrategy (ex_pool e)
             (fun pl => if decide (pl = 0%nat) then Raise e else Ok (Some pl))
             (fun _ => Ok "a"%string) false.

(** More concrete states: a tracker where partition 0 has admitted
    5, 6, 7 and 9 with only 9 outstanding; one with a second partition;
    a batch of submissions, the middle one for a partition that is not
    assigned; the pool after its worker has run; the pool with its lane
    shut down; a pool built with no lanes; strategies over these. *)

Definition ex_error : exn := OtherException "ValueError".

Definition ex_tracker : @OffsetTracker nat _ _ :=
  run_ops [OpUpdateAssignments {[0%nat]};
           OpAddOffset 0%nat 5; OpAddOffset 0%nat 6; OpAddOffset 0%nat 7;
           OpAddOffset 0%nat 9;
           OpCompleteOffset 0%nat 5; OpCompleteOffset 0%nat 6; OpCompleteOffset 0%nat 7]
          OffsetTracker_init.

Definition ex_tracker2 : @OffsetTracker nat _ _ :=
  run_ops [OpUpdateAssignments {[0%nat; 1%nat]};
           OpAddOffset 0%nat 5; OpCompleteOffset 0%nat 5; OpAddOffset 1%nat 3]
          OffsetTracker_init.

Definition ex_subs : list (string * @WorkItem nat nat nat) :=
  [("a"%string, ex_item 0 7 3); ("b"%string, ex_item 1 8 4); ("c"%string, ex_item 0 9 5)].

Definition ex_processed_pool : @FixedQueuePool nat _ _ nat nat :=
  snd (worker_run 3 0 false (ex_pool ex_error)).

Definition ex_failing_commit : gmap nat Z -> outcome unit :=
  fun _ => Raise (OtherException "CommitFailed").

Definition ex_failing_pool : @FixedQueuePool nat _ _ nat nat :=
  with_commit_function ex_processed_pool (Some ex_failing_commit).

Definition ex_closed_pool : @FixedQueuePool nat _ _ nat nat :=
  with_queues (ex_pool ex_error)
              (map (fun q => mkQueue (items q) true) (queues (ex_pool ex_error))).

Definition ex_no_lanes_pool : @FixedQueuePool nat _ _ nat nat :=
  snd (FixedQueuePool_update_assignments {[0%nat]} ex_commit
         (FixedQueuePool_init (ex_processor ex_error) "uptime" 0)).

(** A strategy over [pool] whose decoder yields [None] on payload 0,
    fails on payload 1 and passes any other payload on, and whose
    grouping function gives every payload the key "a". *)
Definition ex_strategy_over (pool : @FixedQueuePool nat _ _ nat nat)
    : @Strategy nat _ _ nat nat :=
  mkStrategy pool
             (fun pl => if decide (pl = 0%nat) then Ok None
                        else if decide (pl = 1%nat) then Raise ex_error
                        else Ok (Some pl))
             (fun _ => Ok "a"%string) false.

Definition ex_message_with (payload : nat) (p : nat) (o : Z) : @Message nat nat :=
  mkMessage payload (BrokerValue p o).

(** * Properties of the offset tracker *)

Section TrackerProofs.

Context {Partition : Type} `{Countable Partition}.

Local Abbreviation tracker := (@OffsetTracker Partition _ _) (only parsing).

(** ** [min] and [max] of a non-empty set *)

Lemma foldr_min_spec (x : Z) (l : list Z) :
  foldr Z.min x l ∈ x :: l ∧ ∀ y, y ∈ x :: l → foldr Z.min x l <= y.
Proof.
  induction l as [|a l [IHin IHle]]; simpl.
  - split; [left|]. intros y Hy. apply list_elem_of_singleton in Hy. lia.
  - split.
    + destruct (Z.min_spec a (foldr Z.min x l)) as [[_ ->]|[_ ->]].
      * right; left.
      * apply elem_of_cons in IHin as [->|Hin]; [left|right; right; exact Hin].
    + intros y Hy.
      assert (y = a ∨ y ∈ x :: l) as [->|Hy'].
      { rewrite !elem_of_cons in Hy. rewrite elem_of_cons. tauto. }
      * lia.
      * specialize (IHle y Hy'). lia.
Qed.

Lemma foldr_max_spec (x : Z) (l : list Z) :
  foldr Z.max x l ∈ x :: l ∧ ∀ y, y ∈ x :: l → y <= foldr Z.max x l.
Proof.
  induction l as [|a l [IHin IHle]]; simpl.
  - split; [left|]. intros y Hy. apply list_elem_of_singleton in Hy. lia.
  - split.
    + destruct (Z.max_spec a (foldr Z.max x l)) as [[_ ->]|[_ ->]].
      * apply elem_of_cons in IHin as [->|Hin]; [left|right; right; exact Hin].
      * right; left.
    + intros y Hy.
      assert (y = a ∨ y ∈ x :: l) as [->|Hy'].
      { rewrite !elem_of_cons in Hy. rewrite elem_of_cons. tauto. }
      * lia.
      * specialize (IHle y Hy'). lia.
Qed.

(** ** The inner scan *)

(** Either the scan stops at once and hands back what it was given, or
    it returns the end of a run of completed admitted offsets that
    begins at [offset], and the offset after the run, when the range
    still holds it, is a hole or is outstanding. *)
Lemma scan_spec (A U : gset Z) (n : nat) :
  ∀ offset hc,
    let r := scan A U offset n hc in
    (r = hc ∧ (n = O ∨ ¬ (offset ∈ A ∧ offset ∉ U)))
    ∨ (offset <= r < offset + Z.of_nat n
       ∧ (∀ o, offset <= o <= r → o ∈ A ∧ o ∉ U)
       ∧ (r + 1 < offset + Z.of_nat n → ¬ (r + 1 ∈ A ∧ r + 1 ∉ U))).
Proof.
  induction n as [|n IH]; intros offset hc; simpl.
  - left. split; [reflexivity | left; reflexivity].
  - case_decide as Hd.
    + right.
      destruct (IH (offset + 1) offset) as [[Hr Hstop]|(Hrange & Hrun & Hhole)].
      * rewrite Hr. split; [lia|]. split.
        -- intros o Ho. assert (o = offset) as -> by lia. exact Hd.
        -- intros Hlt. destruct Hstop as [->|Hstop]; [lia | exact Hstop].
      * split; [lia|]. split.
        -- intros o Ho. destruct (decide (o = offset)) as [->|Hne]; [exact Hd|].
           apply Hrun. lia.
        -- intros Hlt. apply Hhole. lia.
    + left. split; [reflexivity | right; exact Hd].
Qed.

(** ** One partition *)

Lemma min_admitted_spec (A : gset Z) (m : Z) :
  min_admitted A = Some m → m ∈ A ∧ ∀ y, y ∈ A → m <= y.
Proof.
  unfold min_admitted. destruct (elements A) as [|x l] eqn:E; [discriminate|].
  intros [= <-]. destruct (foldr_min_spec x l) as [Hin Hle].
  split.
  - apply elem_of_elements. rewrite E. exact Hin.
  - intros y Hy. apply Hle. rewrite <- E. apply elem_of_elements. exact Hy.
Qed.

(** What the loop body computes for one partition. *)
Lemma committable_for_spec (A U : gset Z) (lc v : Z) :
  committable_for A U lc = Some v →
  ∃ m, min_admitted A = Some m
       ∧ lc < v
       ∧ Z.max (lc + 1) m <= v
       ∧ (∀ o, Z.max (lc + 1) m <= o <= v → o ∈ A ∧ o ∉ U)
       ∧ ¬ (v + 1 ∈ A ∧ v + 1 ∉ U).
Proof.
  unfold committable_for, min_admitted.
  destruct (elements A) as [|x l] eqn:E; [discriminate|].
  cbv zeta. case_decide as Hgt; [|discriminate]. intros [= Hv].
  exists (foldr Z.min x l). split; [reflexivity|].
  set (start := Z.max (lc + 1) (foldr Z.min x l)) in *.
  set (n := Z.to_nat (foldr Z.max x l + 1 - start)) in *.
  destruct (scan_spec A U n start lc) as [[Hr _]|(Hrange & Hrun & Hhole)].
  - rewrite Hr in Hgt. lia.
  - rewrite Hv in *. split; [lia|]. split; [lia|]. split; [exact Hrun|].
    intros [HvA HvO].
    destruct (decide (v + 1 < start + Z.of_nat n)) as [Hlt|Hge].
    + apply Hhole; [exact Hlt | split; assumption].
    + destruct (foldr_max_spec x l) as [_ Hmax].
      assert (v + 1 <= foldr Z.max x l) as Hle.
      { apply Hmax. rewrite <- E. apply elem_of_elements. exact HvA. }
      subst n. lia.
Qed.

(** The body yields nothing for a partition without admitted offsets. *)
Lemma committable_for_empty (U : gset Z) (lc : Z) : committable_for ∅ U lc = None.
Proof. unfold committable_for. rewrite elements_empty. reflexivity. Qed.

(** ** The loop over partitions *)

Lemma dd_get_touch (d : gmap Partition (gset Z)) (p q : Partition) :
  dd_get (dd_touch d p) q = dd_get d q.
Proof.
  unfold dd_get, dd_touch. destruct (d !! p) eqn:E; [reflexivity|].
  destruct (decide (p = q)) as [->|Hne].
  - rewrite lookup_insert_eq, E. reflexivity.
  - rewrite lookup_insert_ne by exact Hne. reflexivity.
Qed.

Lemma dd_get_insert (d : gmap Partition (gset Z)) (p q : Partition) (X : gset Z) :
  dd_get (<[p := X]> d) q = if decide (p = q) then X else dd_get d q.
Proof.
  unfold dd_get. rewrite lookup_insert. case_decide; reflexivity.
Qed.

Lemma same_view_refl (st : tracker) : same_view st st.
Proof. repeat split. Qed.

Lemma same_view_trans (st1 st2 st3 : tracker) :
  same_view st1 st2 → same_view st2 st3 → same_view st1 st3.
Proof.
  intros (Ha & Ho & Hl & Hk) (Ha' & Ho' & Hl' & Hk').
  repeat split; intros; congruence.
Qed.

Lemma same_view_committable_at (st st' : tracker) (p : Partition) :
  same_view st st' → committable_at st p = committable_at st' p.
Proof.
  intros (Ha & Ho & Hl & _). unfold committable_at, last_committed_of.
  rewrite Ha, Ho, Hl. reflexivity.
Qed.

(** The loop over the keys [ks]: it never changes what a client sees of
    the state; it raises only [KeyError], and only at a key without a
    lock; otherwise the mapping it builds holds, at every key of [ks],
    what the body computes there. *)
Lemma gco_loop_spec (ks : list Partition) :
  ∀ (acc : gmap Partition Z) (st st' : tracker) r,
    gco_loop ks acc st = (r, st') →
    same_view st st'
    ∧ match r with
      | Ok m => ∀ p, m !! p =
                     if decide (p ∈ ks)
                     then match committable_at st p with
                          | Some o => Some o
                          | None => acc !! p
                          end
                     else acc !! p
      | Raise e => e = KeyError ∧ ∃ p, p ∈ ks ∧ p ∉ partition_locks st
      end.
Proof.
  induction ks as [|q ks IH]; intros acc st st' r; cbn [gco_loop].
  - intros [= <- <-]. split; [apply same_view_refl|].
    intros p. rewrite decide_False by apply not_elem_of_nil. reflexivity.
  - unfold bind at 1, _get_partition_lock.
    case_decide as Hlock.
    2:{ intros [= <- <-]. split; [apply same_view_refl|].
        split; [reflexivity|]. exists q. split; [left | exact Hlock]. }
    unfold bind at 1, set_all_offsets. unfold bind at 1, get_state. cbn [all_offsets].
    set (st1 := mkTracker (dd_touch (all_offsets st) q) (outstanding st)
                          (last_committed st) (partition_locks st)).
    assert (same_view st st1) as Hv1.
    { repeat split. intros p. cbn. symmetry. apply dd_get_touch. }
    assert (∀ acc1 st2,
      same_view st st2 →
      (∀ p, acc1 !! p = if decide (p = q)
                        then match committable_at st q with
                             | Some o => Some o | None => acc !! q end
                        else acc !! p) →
      gco_loop ks acc1 st2 = (r, st') →
      same_view st st'
      ∧ match r with
        | Ok m => ∀ p, m !! p =
                       if decide (p ∈ q :: ks)
                       then match committable_at st p with
                            | Some o => Some o
                            | None => acc !! p
                            end
                       else acc !! p
        | Raise e => e = KeyError ∧ ∃ p, p ∈ q :: ks ∧ p ∉ partition_locks st
        end) as Hrest.
    { intros acc1 st2 Hv2 Hacc Hrun.
      destruct (IH _ _ _ _ Hrun) as [Hv3 Hres].
      split; [eapply same_view_trans; eassumption|].
      destruct r as [m|e].
      - intros p. rewrite Hres, Hacc.
        rewrite <- (same_view_committable_at st st2 p Hv2).
        destruct (decide (p = q)) as [->|Hne].
        + rewrite (decide_True (P := q ∈ q :: ks)) by left.
          destruct (committable_at st q); case_decide; reflexivity.
        + destruct (decide (p ∈ ks)) as [Hin|Hnin].
          * rewrite (decide_True (P := p ∈ q :: ks)) by (right; exact Hin).
            reflexivity.
          * rewrite (decide_False (P := p ∈ q :: ks)); [reflexivity|].
            rewrite elem_of_cons. tauto.
      - destruct Hres as [-> (p & Hin & Hnl)]. split; [reflexivity|].
        exists p. split; [right; exact Hin|].
        destruct Hv2 as (_ & _ & _ & Hk). rewrite Hk. exact Hnl. }
    case_decide as Hempty.
    + apply Hrest; [exact Hv1|].
      intros p. case_decide as Hpq; [subst p|reflexivity].
      unfold committable_at. destruct Hv1 as (Ha & _). rewrite (Ha q).
      change (dd_get (all_offsets st1) q = ∅) in Hempty.
      rewrite Hempty, committable_for_empty. reflexivity.
    + unfold bind at 1, set_outstanding. cbn [all_offsets outstanding last_committed partition_locks].
      fold st1.
      set (st2 := mkTracker _ _ _ _).
      assert (same_view st st2) as Hv2.
      { repeat split. intros p. cbn. symmetry. apply dd_get_touch.
        intros p. cbn. symmetry. apply dd_get_touch. }
      change (committable_for _ _ _) with (committable_at st1 q).
      rewrite <- (same_view_committable_at st st1 q Hv1).
      destruct (committable_at st q) as [o|] eqn:Ecf.
      * apply Hrest; [exact Hv2|].
        intros p. rewrite lookup_insert. repeat case_decide; congruence.
      * apply Hrest; [exact Hv2|].
        intros p. case_decide; congruence.
Qed.

(** [get_committable_offsets]: the mapping holds, at every partition,
    what the loop body computes there; a [KeyError] needs a key of
    [all_offsets] without a lock. *)
Lemma get_committable_offsets_spec (st st' : tracker) r :
  get_committable_offsets st = (r, st') →
  same_view st st'
  ∧ match r with
    | Ok m => ∀ p, m !! p = committable_at st p
    | Raise e => e = KeyError
                 ∧ ∃ p, is_Some (all_offsets st !! p) ∧ p ∉ partition_locks st
    end.
Proof.
  unfold get_committable_offsets, bind, get_state. intros Hrun.
  destruct (gco_loop_spec _ _ _ _ _ Hrun) as [Hv Hres].
  split; [exact Hv|].
  assert (∀ p, p ∈ (map_to_list (all_offsets st)).*1 ↔ is_Some (all_offsets st !! p)) as Hkeys.
  { intros p. rewrite list_elem_of_fmap. split.
    - intros ([k x] & -> & Hin). apply elem_of_map_to_list in Hin. eauto.
    - intros [x Hx]. exists (p, x). split; [reflexivity|].
      apply elem_of_map_to_list. exact Hx. }
  destruct r as [m|e].
  - intros p. rewrite Hres. case_decide as Hin.
    + destruct (committable_at st p); [reflexivity | apply lookup_empty].
    + rewrite lookup_empty. unfold committable_at, dd_get.
      destruct (all_offsets st !! p) eqn:E.
      * exfalso. apply Hin, Hkeys. eauto.
      * cbn. rewrite committable_for_empty. reflexivity.
  - destruct Hres as [-> (p & Hin & Hnl)]. split; [reflexivity|].
    exists p. split; [apply Hkeys; exact Hin | exact Hnl].
Qed.

(** On a state where every tracked partition has its lock the method
    returns. *)
Lemma get_committable_offsets_returns (st : tracker) :
  tracked_assigned st →
  ∃ m st', get_committable_offsets st = (Ok m, st')
           ∧ same_view st st'
           ∧ ∀ p, m !! p = committable_at st p.
Proof.
  intros Hwf. destruct (get_committable_offsets st) as [r st'] eqn:E.
  destruct (get_committable_offsets_spec _ _ _ E) as [Hv Hres].
  destruct r as [m|e].
  - exists m, st'. auto.
  - destruct Hres as [_ (p & Hsome & Hnl)]. exfalso. apply Hnl, Hwf, Hsome.
Qed.

(** ** The single operations *)

Lemma add_offset_assigned (st : tracker) (p : Partition) (o : Z) :
  p ∈ partition_locks st →
  add_offset p o st =
    (Ok tt, mkTracker (<[p := {[o]} ∪ dd_get (all_offsets st) p]> (all_offsets st))
                      (<[p := {[o]} ∪ dd_get (outstanding st) p]> (outstanding st))
                      (last_committed st) (partition_locks st)).
Proof.
  intros Hp. unfold add_offset, bind, get_state, _get_partition_lock.
  rewrite decide_False by (intros Hn; exact (Hn Hp)).
  rewrite decide_True by exact Hp. reflexivity.
Qed.

Lemma add_offset_unassigned (st : tracker) (p : Partition) (o : Z) :
  p ∉ partition_locks st → add_offset p o st = (Raise UnassignedPartitionError, st).
Proof.
  intros Hp. unfold add_offset, bind, get_state.
  rewrite decide_True by exact Hp. reflexivity.
Qed.

Lemma complete_offset_assigned (st : tracker) (p : Partition) (o : Z) :
  p ∈ partition_locks st →
  complete_offset p o st =
    (Ok tt, mkTracker (all_offsets st)
                      (<[p := dd_get (outstanding st) p ∖ {[o]}]> (outstanding st))
                      (last_committed st) (partition_locks st)).
Proof.
  intros Hp. unfold complete_offset, bind, get_state, _get_partition_lock.
  rewrite decide_False by (intros Hn; exact (Hn Hp)).
  rewrite decide_True by exact Hp. reflexivity.
Qed.

Lemma complete_offset_unassigned (st : tracker) (p : Partition) (o : Z) :
  p ∉ partition_locks st → complete_offset p o st = (Ok tt, st).
Proof.
  intros Hp. unfold complete_offset, bind, get_state.
  rewrite decide_True by exact Hp. reflexivity.
Qed.

Lemma mark_committed_assigned (st : tracker) (p : Partition) (o : Z) :
  p ∈ partition_locks st →
  mark_committed p o st =
    (Ok tt, mkTracker (<[p := filter (fun x => x > o) (dd_get (all_offsets st) p)]>
                         (all_offsets st))
                      (outstanding st)
                      (<[p := o]> (last_committed st)) (partition_locks st)).
Proof.
  intros Hp. unfold mark_committed, bind, _get_partition_lock.
  rewrite decide_True by exact Hp. reflexivity.
Qed.

Lemma mark_committed_unassigned (st : tracker) (p : Partition) (o : Z) :
  p ∉ partition_locks st → mark_committed p o st = (Raise KeyError, st).
Proof.
  intros Hp. unfold mark_committed, bind, _get_partition_lock.
  rewrite decide_False by exact Hp. reflexivity.
Qed.

(** ** Every tracked partition has a lock *)

Lemma tracked_assigned_init : tracked_assigned (OffsetTracker_init : tracker).
Proof. intros p [x Hx]. cbn in Hx. rewrite lookup_empty in Hx. discriminate. Qed.

Lemma tracked_assigned_get_committable (st st' : tracker) r :
  get_committable_offsets st = (r, st') → tracked_assigned st → tracked_assigned st'.
Proof.
  intros Hrun Hwf.
  unfold get_committable_offsets, bind, get_state in Hrun.
  assert (∀ ks acc (s s' : tracker) r,
    gco_loop ks acc s = (r, s') →
    (∀ p, is_Some (all_offsets s' !! p) → is_Some (all_offsets s !! p) ∨ p ∈ partition_locks s)
    ∧ partition_locks s' = partition_locks s) as Hgen.
  { clear. induction ks as [|q ks IH]; intros acc s s' r; cbn [gco_loop].
    - intros [= <- <-]. auto.
    - unfold bind at 1, _get_partition_lock. case_decide as Hlock.
      2:{ intros [= <- <-]. auto. }
      unfold bind at 1, set_all_offsets. unfold bind at 1, get_state.
      assert (∀ p, is_Some (dd_touch (all_offsets s) q !! p) →
                   is_Some (all_offsets s !! p) ∨ p ∈ partition_locks s) as Htouch.
      { intros p. unfold dd_touch. destruct (all_offsets s !! q) eqn:E; [auto|].
        rewrite lookup_insert. case_decide as Hqp; [subst p; auto | auto]. }
      case_decide as Hempty.
      + intros Hrun. destruct (IH _ _ _ _ Hrun) as [Hk Hl]. cbn in Hk, Hl.
        split; [|exact Hl]. intros p Hp. destruct (Hk p Hp) as [Hs|Hs]; auto.
      + unfold bind at 1, set_outstanding.
        cbn [all_offsets outstanding last_committed partition_locks].
        destruct (committable_for _ _ _); intros Hrun;
          destruct (IH _ _ _ _ Hrun) as [Hk Hl]; cbn in Hk, Hl;
          (split; [|exact Hl]); intros p Hp; destruct (Hk p Hp) as [Hs|Hs]; auto. }
  destruct (Hgen _ _ _ _ _ Hrun) as [Hk Hl].
  intros p Hp. rewrite Hl. destruct (Hk p Hp) as [Hs|Hs]; auto.
Qed.

Lemma tracked_assigned_run_op (op : tracker_op) (st : tracker) :
  tracked_assigned st → tracked_assigned (run_op op st).
Proof.
  intros Hwf. destruct op as [p o|p o| |p o|ps|]; cbn [run_op].
  - destruct (decide (p ∈ partition_locks st)) as [Hp|Hp].
    + rewrite add_offset_assigned by exact Hp. intros q. cbn.
      rewrite lookup_insert. case_decide; [subst; auto | apply Hwf].
    + rewrite add_offset_unassigned by exact Hp. exact Hwf.
  - destruct (decide (p ∈ partition_locks st)) as [Hp|Hp].
    + rewrite complete_offset_assigned by exact Hp. exact Hwf.
    + rewrite complete_offset_unassigned by exact Hp. exact Hwf.
  - destruct (get_committable_offsets st) as [r st'] eqn:E.
    exact (tracked_assigned_get_committable st st' r E Hwf).
  - destruct (decide (p ∈ partition_locks st)) as [Hp|Hp].
    + rewrite mark_committed_assigned by exact Hp. intros q. cbn.
      rewrite lookup_insert. case_decide; [subst; auto | apply Hwf].
    + rewrite mark_committed_unassigned by exact Hp. exact Hwf.
  - intros q [x Hx]. cbn in Hx. rewrite lookup_empty in Hx. discriminate.
  - apply tracked_assigned_init.
Qed.

Lemma tracked_assigned_run_ops (ops : list tracker_op) (st : tracker) :
  tracked_assigned st → tracked_assigned (run_ops ops st).
Proof.
  revert st. induction ops as [|op ops IH]; intros st Hwf; [exact Hwf|].
  apply IH, tracked_assigned_run_op, Hwf.
Qed.

(** ** The subset invariant *)

Lemma ledger_inv_init : ledger_inv (OffsetTracker_init : tracker).
Proof. intros p. unfold dd_get. cbn. rewrite lookup_empty. reflexivity. Qed.

Lemma ledger_inv_run_op (op : tracker_op) (st : tracker) :
  ledger_inv st → op_keeps_outstanding op st → ledger_inv (run_op op st).
Proof.
  intros Hinv Hok. destruct op as [p o|p o| |p o|ps|]; cbn [run_op].
  - destruct (decide (p ∈ partition_locks st)) as [Hp|Hp].
    + rewrite add_offset_assigned by exact Hp. intros q. cbn.
      rewrite !dd_get_insert. case_decide; [|apply Hinv].
      apply union_mono_l, Hinv.
    + rewrite add_offset_unassigned by exact Hp. exact Hinv.
  - destruct (decide (p ∈ partition_locks st)) as [Hp|Hp].
    + rewrite complete_offset_assigned by exact Hp. intros q. cbn.
      rewrite !dd_get_insert. case_decide as Hpq; [|apply Hinv].
      subst q. apply subseteq_difference_l, Hinv.
    + rewrite complete_offset_unassigned by exact Hp. exact Hinv.
  - destruct (get_committable_offsets st) as [r st'] eqn:E.
    destruct (get_committable_offsets_spec _ _ _ E) as [(Ha & Ho & _) _].
    intros q. cbn. rewrite <- Ha, <- Ho. apply Hinv.
  - destruct (decide (p ∈ partition_locks st)) as [Hp|Hp].
    + rewrite mark_committed_assigned by exact Hp. intros q. cbn.
      rewrite dd_get_insert. case_decide as Hpq; [|apply Hinv].
      subst q. destruct Hok as [Hn|Hgt]; [contradiction|].
      intros x Hx. apply elem_of_filter. split.
      * specialize (Hgt x Hx). lia.
      * apply Hinv, Hx.
    + rewrite mark_committed_unassigned by exact Hp. exact Hinv.
  - apply ledger_inv_init.
  - apply ledger_inv_init.
Qed.

Lemma ops_keep_outstanding_take (ops : list tracker_op) :
  ∀ (st : tracker) k, ops_keep_outstanding ops st → ops_keep_outstanding (take k ops) st.
Proof.
  induction ops as [|op ops IH]; intros st k Hok.
  - rewrite take_nil. exact I.
  - destruct k as [|k]; [exact I|]. destruct Hok as [H1 H2].
    cbn. split; [exact H1 | apply IH, H2].
Qed.

Lemma ledger_inv_run_ops (ops : list tracker_op) :
  ∀ (st : tracker), ledger_inv st → ops_keep_outstanding ops st → ledger_inv (run_ops ops st).
Proof.
  induction ops as [|op ops IH]; intros st Hinv Hok; [exact Hinv|].
  destruct Hok as [H1 H2]. apply IH; [apply ledger_inv_run_op; assumption | exact H2].
Qed.

(** ** The claims about the tracker *)

(** C1, as amended.  After any sequence of tracker calls,
    [get_committable_offsets] returns, and every value [v] it gives for
    a partition [p] exceeds the last checkpoint and ends a run that
    starts at [max(last_committed + 1, min(all_offsets))]: [v] is at or
    above that start, every offset from the start up to [v], [v]
    included, is admitted and not outstanding, and [v + 1] is a hole or
    outstanding, so the scan stopped at the first gap above its start.
    Offsets between the checkpoint and the smallest admitted offset are
    not looked at. *)
Theorem committable_is_contiguous_from_start (ops : list tracker_op) :
  let st : tracker := run_ops ops OffsetTracker_init in
  ∃ m st',
    get_committable_offsets st = (Ok m, st')
    ∧ ∀ p v, m !! p = Some v →
        ∃ lo, min_admitted (dd_get (all_offsets st) p) = Some lo
              ∧ last_committed_of st p < v
              ∧ Z.max (last_committed_of st p + 1) lo <= v
              ∧ (v ∈ dd_get (all_offsets st) p ∧ v ∉ dd_get (outstanding st) p)
              ∧ (∀ o, Z.max (last_committed_of st p + 1) lo <= o <= v →
                      o ∈ dd_get (all_offsets st) p ∧ o ∉ dd_get (outstanding st) p)
              ∧ ¬ (v + 1 ∈ dd_get (all_offsets st) p
                   ∧ v + 1 ∉ dd_get (outstanding st) p).
Proof.
  intros st.
  assert (tracked_assigned st) as Hwf
    by apply tracked_assigned_run_ops, tracked_assigned_init.
  destruct (get_committable_offsets_returns st Hwf) as (m & st' & Hrun & _ & Hm).
  exists m, st'. split; [exact Hrun|].
  intros p v Hv. rewrite Hm in Hv.
  destruct (committable_for_spec _ _ _ _ Hv) as (lo & Hlo & Hlt & Hle & Hrunp & Hstop).
  exists lo. split; [exact Hlo|]. split; [exact Hlt|]. split; [exact Hle|].
  split; [apply Hrunp; lia|]. split; [exact Hrunp | exact Hstop].
Qed.

(** C3, as amended.  From the initial state, after every call of a
    sequence in which each [mark_committed(p, o)] is made while no
    outstanding offset of [p] is at or below [o], [outstanding[p]] is a
    subset of [all_offsets[p]] for every partition. *)
Theorem outstanding_subset_admitted (ops : list tracker_op) (k : nat) :
  ops_keep_outstanding ops (OffsetTracker_init : tracker) →
  ledger_inv (run_ops (take k ops) (OffsetTracker_init : tracker)).
Proof.
  intros Hok. apply ledger_inv_run_ops; [apply ledger_inv_init|].
  apply ops_keep_outstanding_take, Hok.
Qed.

(** C4.  In a state where partition [p] has no checkpoint, its admitted
    offsets are {5, 6, 7, 9} and only 9 is outstanding,
    [get_committable_offsets] returns and gives 7 for [p]. *)
Theorem committable_stops_before_hole (st : tracker) (p : Partition) :
  tracked_assigned st →
  last_committed st !! p = None →
  dd_get (all_offsets st) p = {[5; 6; 7; 9]} →
  dd_get (outstanding st) p = {[9]} →
  ∃ m st', get_committable_offsets st = (Ok m, st') ∧ m !! p = Some 7.
Proof.
  intros Hwf Hlc Hall Hout.
  destruct (get_committable_offsets_returns st Hwf) as (m & st' & Hrun & _ & Hm).
  exists m, st'. split; [exact Hrun|].
  rewrite Hm. unfold committable_at, last_committed_of.
  rewrite Hall, Hout, Hlc. vm_compute. reflexivity.
Qed.

(** C10.  For a partition without a lock, [mark_committed] raises
    [KeyError] out of the lock lookup and leaves the state as it was;
    [complete_offset] returns without a change and [add_offset] raises
    the unassigned-partition error. *)
Theorem mark_committed_unassigned_raises_KeyError (st : tracker) (p : Partition) (o : Z) :
  p ∉ partition_locks st →
  _get_partition_lock p st = (Raise KeyError, st)
  ∧ mark_committed p o st = (Raise KeyError, st)
  ∧ complete_offset p o st = (Ok tt, st)
  ∧ add_offset p o st = (Raise UnassignedPartitionError, st).
Proof.
  intros Hp. split; [|split; [|split]].
  - unfold _get_partition_lock. rewrite decide_False by exact Hp. reflexivity.
  - apply mark_committed_unassigned, Hp.
  - apply complete_offset_unassigned, Hp.
  - apply add_offset_unassigned, Hp.
Qed.

End TrackerProofs.

(** ** The tracker on concrete calls *)

(** C1 as stated fails.  Offsets 5, 6, 7 and 9 are admitted, 8 never
    is; 5, 6 and 7 complete and 7 is committed; then 9 completes.
    [get_committable_offsets] now returns 9, though offset 8, which
    lies in (last_committed, 9] = (7, 9], was never admitted: the scan
    starts at the smallest admitted offset and so passes over the
    gap. *)
Lemma committable_range_from_checkpoint_counterexample :
  let st : @OffsetTracker nat _ _ :=
    run_ops [OpUpdateAssignments {[0%nat]};
             OpAddOffset 0%nat 5; OpAddOffset 0%nat 6; OpAddOffset 0%nat 7;
             OpAddOffset 0%nat 9;
             OpCompleteOffset 0%nat 5; OpCompleteOffset 0%nat 6; OpCompleteOffset 0%nat 7;
             OpGetCommittableOffsets; OpMarkCommitted 0%nat 7;
             OpCompleteOffset 0%nat 9]
            OffsetTracker_init in
  ∃ m st',
    get_committable_offsets st = (Ok m, st')
    ∧ m !! 0%nat = Some 9
    ∧ last_committed_of st 0%nat = 7
    ∧ ¬ (∀ o, last_committed_of st 0%nat < o <= 9 →
              o ∈ dd_get (all_offsets st) 0%nat ∧ o ∉ dd_get (outstanding st) 0%nat).
Proof.
  intros st. eexists _, _. split; [vm_compute; reflexivity|].
  split; [vm_compute; reflexivity|].
  split; [vm_compute; reflexivity|].
  intros Hall. destruct (Hall 8) as [Hin _].
  - vm_compute. split; [reflexivity | discriminate].
  - assert (8 ∉ dd_get (all_offsets st) 0%nat) as Hnin
      by (apply (bool_decide_eq_false_1 _); vm_compute; reflexivity).
    exact (Hnin Hin).
Qed.

Lemma committable_is_contiguous_from_start_witness :
  let st : @OffsetTracker nat _ _ :=
    run_ops [OpUpdateAssignments {[0%nat]};
             OpAddOffset 0%nat 5; OpAddOffset 0%nat 6; OpAddOffset 0%nat 7;
             OpAddOffset 0%nat 9;
             OpCompleteOffset 0%nat 5; OpCompleteOffset 0%nat 6; OpCompleteOffset 0%nat 7]
            OffsetTracker_init in
  ∃ m st',
    get_committable_offsets st = (Ok m, st')
    ∧ m !! 0%nat = Some 7
    ∧ ∀ o, 5 <= o <= 7 →
           o ∈ dd_get (all_offsets st) 0%nat ∧ o ∉ dd_get (outstanding st) 0%nat.
Proof.
  intros st.
  destruct (committable_is_contiguous_from_start
              [OpUpdateAssignments {[0%nat]};
               OpAddOffset 0%nat 5; OpAddOffset 0%nat 6; OpAddOffset 0%nat 7;
               OpAddOffset 0%nat 9;
               OpCompleteOffset 0%nat 5; OpCompleteOffset 0%nat 6; OpCompleteOffset 0%nat 7])
    as (m & st' & Hrun & Hm).
  fold st in Hrun, Hm.
  assert (m !! 0%nat = Some 7) as H7.
  { assert (fst (get_committable_offsets st) = Ok m) as Hfst by (rewrite Hrun; reflexivity).
    vm_compute in Hfst. injection Hfst as <-. vm_compute. reflexivity. }
  exists m, st'. split; [exact Hrun|]. split; [exact H7|].
  destruct (Hm 0%nat 7 H7) as (lo & Hlo & _ & _ & _ & Hrange & _).
  vm_compute in Hlo. injection Hlo as <-.
  intros o Ho. apply Hrange.
  assert (last_committed_of st 0%nat = -1) as -> by (vm_compute; reflexivity).
  lia.
Defined.

(** C3 as stated fails: [mark_committed] on an offset that is still
    outstanding prunes it from [all_offsets] and leaves it in
    [outstanding]. *)
Lemma outstanding_subset_admitted_counterexample :
  let st : @OffsetTracker nat _ _ :=
    run_ops [OpUpdateAssignments {[0%nat]}; OpAddOffset 0%nat 5; OpMarkCommitted 0%nat 5]
            OffsetTracker_init in
  (5 ∈ dd_get (outstanding st) 0%nat)
  ∧ (5 ∉ dd_get (all_offsets st) 0%nat)
  ∧ ¬ ledger_inv st.
Proof.
  intros st.
  assert (5 ∈ dd_get (outstanding st) 0%nat) as Hin.
  { apply (bool_decide_eq_true_1 _). vm_compute. reflexivity. }
  assert (5 ∉ dd_get (all_offsets st) 0%nat) as Hnin.
  { apply (bool_decide_eq_false_1 _). vm_compute. reflexivity. }
  split; [exact Hin|]. split; [exact Hnin|].
  intros Hinv. apply Hnin. apply (Hinv 0%nat). exact Hin.
Qed.

Lemma outstanding_subset_admitted_witness :
  let ops : list (@tracker_op nat _ _) :=
    [OpUpdateAssignments {[0%nat]}; OpAddOffset 0%nat 5; OpCompleteOffset 0%nat 5;
     OpGetCommittableOffsets; OpMarkCommitted 0%nat 5; OpAddOffset 0%nat 6] in
  ops_keep_outstanding ops OffsetTracker_init
  ∧ ledger_inv (run_ops (take 6 ops) OffsetTracker_init).
Proof.
  intros ops.
  assert (ops_keep_outstanding ops OffsetTracker_init) as Hok.
  { cbn [ops ops_keep_outstanding op_keeps_outstanding].
    repeat (split; [exact I|]). split; [|split; exact I].
    right. intros x Hx. exfalso.
    assert (dd_get (outstanding (run_ops (take 4 ops) OffsetTracker_init)) 0%nat = ∅) as Hempty
      by (vm_compute; reflexivity).
    cbn [ops take run_ops foldl] in Hempty. rewrite Hempty in Hx.
    exact (not_elem_of_empty x Hx). }
  split; [exact Hok|].
  exact (outstanding_subset_admitted ops 6 Hok).
Defined.

Lemma committable_stops_before_hole_witness :
  let st : @OffsetTracker nat _ _ :=
    run_ops [OpUpdateAssignments {[0%nat]};
             OpAddOffset 0%nat 5; OpAddOffset 0%nat 6; OpAddOffset 0%nat 7;
             OpAddOffset 0%nat 9;
             OpCompleteOffset 0%nat 5; OpCompleteOffset 0%nat 6; OpCompleteOffset 0%nat 7]
            OffsetTracker_init in
  ∃ m st', get_committable_offsets st = (Ok m, st') ∧ m !! 0%nat = Some 7.
Proof.
  intros st. apply (committable_stops_before_hole st 0%nat).
  - apply tracked_assigned_run_ops, tracked_assigned_init.
  - vm_compute. reflexivity.
  - vm_compute. reflexivity.
  - vm_compute. reflexivity.
Defined.

Lemma mark_committed_unassigned_raises_KeyError_witness :
  let st : @OffsetTracker nat _ _ :=
    run_ops [OpUpdateAssignments {[0%nat]}; OpAddOffset 0%nat 5] OffsetTracker_init in
  mark_committed 1%nat 5 st = (Raise KeyError, st)
  ∧ complete_offset 1%nat 5 st = (Ok tt, st).
Proof.
  intros st.
  destruct (mark_committed_unassigned_raises_KeyError st 1%nat 5) as (_ & Hm & Hc & _).
  - apply (bool_decide_eq_false_1 _). vm_compute. reflexivity.
  - split; [exact Hm | exact Hc].
Defined.

(** * Properties of the pool *)

Section PoolProofs.

Context {Partition : Type} `{Countable Partition}.
Context {T Payload : Type}.
Context (hash : string -> Z).

Local Abbreviation pool_state := (@FixedQueuePool Partition _ _ T Payload) (only parsing).
Local Abbreviation work_item := (@WorkItem Partition T Payload) (only parsing).
Local Abbreviation lane := (@Queue Partition T Payload) (only parsing).

Lemma with_tracker_id (pool : pool_state) : with_tracker pool (offset_tracker pool) = pool.
Proof. destruct pool; reflexivity. Qed.

Lemma with_queues_id (pool : pool_state) : with_queues pool (queues pool) = pool.
Proof. destruct pool; reflexivity. Qed.

Lemma complete_offset_returns (t : OffsetTracker) (p : Partition) (o : Z) :
  complete_offset p o t = (Ok tt, snd (complete_offset p o t))
  ∧ last_committed (snd (complete_offset p o t)) = last_committed t
  ∧ partition_locks (snd (complete_offset p o t)) = partition_locks t.
Proof.
  destruct (decide (p ∈ partition_locks t)) as [Hp|Hp].
  - rewrite complete_offset_assigned by exact Hp. auto.
  - rewrite complete_offset_unassigned by exact Hp. auto.
Qed.

(** ** Submission *)

Lemma submit_unassigned (pool : pool_state) (group_key : string) (it : work_item) :
  partition it ∉ partition_locks (offset_tracker pool) →
  FixedQueuePool_submit hash group_key it pool = (Ok tt, pool).
Proof.
  intros Hp. unfold FixedQueuePool_submit, bind, try_except, on_tracker.
  rewrite add_offset_unassigned by exact Hp. cbn.
  rewrite with_tracker_id. reflexivity.
Qed.

(** C6.  When the item's partition has no lock, [submit] returns
    normally and the pool is what it was: no queue received the item
    and the tracker's [all_offsets], [outstanding] and
    [last_committed] are unchanged. *)
Theorem submit_unassigned_is_dropped (pool : pool_state) (group_key : string)
    (it : work_item) :
  partition it ∉ partition_locks (offset_tracker pool) →
  FixedQueuePool_submit hash group_key it pool = (Ok tt, pool)
  ∧ queues (snd (FixedQueuePool_submit hash group_key it pool)) = queues pool
  ∧ offset_tracker (snd (FixedQueuePool_submit hash group_key it pool))
    = offset_tracker pool.
Proof.
  intros Hp. rewrite (submit_unassigned pool group_key it Hp). auto.
Qed.

(** [submit] logs nothing and leaves the checkpoints alone. *)
Lemma submit_effect (pool : pool_state) (group_key : string) (it : work_item) :
  log (snd (FixedQueuePool_submit hash group_key it pool)) = log pool
  ∧ last_committed (offset_tracker (snd (FixedQueuePool_submit hash group_key it pool)))
    = last_committed (offset_tracker pool).
Proof.
  destruct (decide (partition it ∈ partition_locks (offset_tracker pool))) as [Hp|Hp].
  2:{ rewrite submit_unassigned by exact Hp. auto. }
  unfold FixedQueuePool_submit, bind, try_except, on_tracker.
  rewrite add_offset_assigned by exact Hp.
  unfold get_queue_for_group, bind, get_state, raise, ret. cbn.
  case_decide; [auto|].
  destruct (py_index _ _) as [i|]; [|auto].
  unfold on_queue. cbn.
  destruct (_ !! i) as [q|]; [|auto].
  unfold queue_put. destruct (is_shutdown q); auto.
Qed.

(** ** Lane workers *)

Lemma worker_events_cons (w : nat) (it : work_item) (its : list work_item) :
  worker_events w (it :: its) =
    [EvDequeued w it; EvProcessed w it; EvCompleted w it] ++ worker_events w its.
Proof. reflexivity. Qed.

Lemma raises_only_Exception_tail (pool pool' : pool_state) (it : work_item)
    (its : list work_item) :
  result_processor pool' = result_processor pool →
  identifier pool' = identifier pool →
  raises_only_Exception pool (it :: its) → raises_only_Exception pool' its.
Proof.
  intros Hr Hi Hall x e Hx. rewrite Hr, Hi. apply Hall. right. exact Hx.
Qed.

(** The worker of queue [w] on the items [its] of that queue: it gets
    through the first [k] of them, and for each of these it dequeued,
    called the callback and called [complete_offset], in this order,
    before touching the next.  When the callback raises nothing outside
    [Exception] and the fuel covers the queue, [k] is all of them and
    the worker ends waiting on the empty queue, or stopped when the
    queue was shut down. *)
Lemma worker_run_spec (w : nat) (its : list work_item) :
  ∀ (fuel : nat) (pool : pool_state) (q : lane),
    queues pool !! w = Some q → items q = its →
    ∃ (k : nat) r pool',
      worker_run fuel w false pool = (r, pool')
      ∧ log pool' = log pool ++ worker_events w (take k its)
      ∧ offset_tracker pool' = complete_all (take k its) (offset_tracker pool)
      ∧ queues pool' = <[w := mkQueue (drop k its) (is_shutdown q)]> (queues pool)
      ∧ (raises_only_Exception pool its → (length its < fuel)%nat →
         k = length its
         ∧ r = Ok (Some (if is_shutdown q then Stopped else Blocked))).
Proof.
  induction its as [|it rest IH]; intros fuel pool q Hq Hits.
  - assert (<[w := mkQueue [] (is_shutdown q)]> (queues pool) = queues pool) as Hid.
    { apply list_insert_id. rewrite Hq. f_equal. destruct q; cbn in *; congruence. }
    destruct fuel as [|fuel].
    + exists O, (Ok None), pool. cbn. rewrite app_nil_r, Hid.
      repeat split; try reflexivity; intros; lia.
    + exists O. cbn [worker_run]. unfold bind, try_except, on_queue, queue_get, ret.
      rewrite Hq, Hits.
      assert (<[w := q]> (queues pool) = queues pool) as Hidq by (apply list_insert_id, Hq).
      destruct (is_shutdown q) eqn:Esh; cbn; rewrite Hidq, with_queues_id;
        eexists _, pool; cbn; rewrite app_nil_r, Hid; repeat split.
  - destruct fuel as [|fuel].
    + exists O, (Ok None), pool. cbn. rewrite app_nil_r.
      assert (<[w := mkQueue (it :: rest) (is_shutdown q)]> (queues pool) = queues pool) as ->.
      { apply list_insert_id. rewrite Hq. f_equal. destruct q; cbn in *; congruence. }
      repeat split; try reflexivity; intros; lia.
    + cbn [worker_run]. unfold bind at 1. unfold try_except at 1. unfold bind at 1.
      unfold on_queue at 1. rewrite Hq. unfold queue_get. rewrite Hits. cbn [ret].
      unfold bind at 1. unfold emit at 1. unfold bind at 1.
      unfold try_finally, try_except, bind, emit, get_state, call, on_tracker, ret.
      unfold with_log, with_tracker, with_queues.
      cbn [log offset_tracker result_processor identifier queues num_queues
           commit_function].
      destruct (complete_offset_returns (offset_tracker pool) (partition it) (offset it))
        as (Hc & _ & _).
      assert (w < length (queues pool))%nat as Hw by (eapply lookup_lt_Some; exact Hq).
      set (t1 := snd (complete_offset (partition it) (offset it) (offset_tracker pool))) in *.
      set (pool2 := mkPool (result_processor pool) (identifier pool) (num_queues pool) t1
                      (<[w := mkQueue rest (is_shutdown q)]> (queues pool))
                      (commit_function pool)
                      (((log pool ++ [EvDequeued w it]) ++ [EvProcessed w it])
                         ++ [EvCompleted w it])).
      assert (queues pool2 !! w = Some (mkQueue rest (is_shutdown q))) as Hq2
        by (cbn; apply list_lookup_insert_eq; exact Hw).
      destruct (IH fuel pool2 _ Hq2 eq_refl) as (k & r & pool' & Hrun & Hlog & Htr & Hqs & Hall).
      assert (log pool' = log pool ++ worker_events w (take (S k) (it :: rest))) as Hlog'.
      { rewrite Hlog. cbn [take]. rewrite worker_events_cons. cbn [log pool2].
        rewrite <- !app_assoc. reflexivity. }
      assert (queues pool' = <[w := mkQueue (drop (S k) (it :: rest)) (is_shutdown q)]>
                               (queues pool)) as Hqs'.
      { rewrite Hqs. cbn. apply list_insert_insert_eq. }
      destruct (result_processor pool (identifier pool) (result it)) as [u|e] eqn:Ecall.
      * cbn [log offset_tracker result_processor identifier queues num_queues
             commit_function]. rewrite Hc. fold pool2. exists (S k), r, pool'.
        split; [exact Hrun|]. split; [exact Hlog'|]. split; [exact Htr|].
        split; [exact Hqs'|]. intros Hexc Hlen. cbn [length] in Hlen.
        destruct Hall as [-> ->]; [|lia|auto].
        eapply raises_only_Exception_tail; [| |exact Hexc]; reflexivity.
      * destruct (is_Exception e) eqn:Eexc.
        -- cbn [log offset_tracker result_processor identifier queues num_queues
             commit_function]. rewrite Hc. fold pool2. exists (S k), r, pool'.
           split; [exact Hrun|]. split; [exact Hlog'|]. split; [exact Htr|].
           split; [exact Hqs'|]. intros Hexc Hlen. cbn [length] in Hlen.
           destruct Hall as [-> ->]; [|lia|auto].
           eapply raises_only_Exception_tail; [| |exact Hexc]; reflexivity.
        -- cbn [log offset_tracker result_processor identifier queues num_queues
             commit_function]. rewrite Hc. fold pool2. exists 1%nat, (Raise e), pool2.
           split; [reflexivity|]. split.
           { cbn [take]. rewrite worker_events_cons. cbn [log pool2 worker_events].
             rewrite <- !app_assoc. reflexivity. }
           split; [reflexivity|]. split.
           { cbn. rewrite drop_0. reflexivity. }
           intros Hexc _. exfalso.
           assert (is_Exception e = true) as Ht by (eapply Hexc; [left|exact Ecall]).
           congruence.
Qed.

(** C5, as amended.  The worker of queue [w] gets through a prefix of
    the queue's items, and for each item of the prefix the log holds
    the dequeue, the callback and the [complete_offset] call, in this
    order and before the next item's dequeue, whatever the callback
    did.  When the callback raises nothing outside [Exception] and the
    fuel covers the queue, the prefix is the whole queue: such a
    failure does not end the loop. *)
Theorem worker_completes_each_item (fuel w : nat) (pool : pool_state) (q : lane) :
  queues pool !! w = Some q →
  ∃ (k : nat) r pool',
    worker_run fuel w false pool = (r, pool')
    ∧ log pool' = log pool ++ worker_events w (take k (items q))
    ∧ offset_tracker pool' = complete_all (take k (items q)) (offset_tracker pool)
    ∧ queues pool' = <[w := mkQueue (drop k (items q)) (is_shutdown q)]> (queues pool)
    ∧ (raises_only_Exception pool (items q) → (length (items q) < fuel)%nat →
       k = length (items q)
       ∧ r = Ok (Some (if is_shutdown q then Stopped else Blocked))).
Proof.
  intros Hq. exact (worker_run_spec w (items q) fuel pool q Hq eq_refl).
Qed.

Lemma complete_all_last_committed (its : list work_item) :
  ∀ t : OffsetTracker,
    last_committed (complete_all its t) = last_committed t
    ∧ partition_locks (complete_all its t) = partition_locks t.
Proof.
  induction its as [|it its IH]; intros t; [auto|].
  change (complete_all (it :: its) t)
    with (complete_all its (snd (complete_offset (partition it) (offset it) t))).
  destruct (IH (snd (complete_offset (partition it) (offset it) t))) as [-> ->].
  destruct (complete_offset_returns t (partition it) (offset it)) as (_ & Hl & Hk).
  auto.
Qed.

Lemma complete_all_unassigned (its : list work_item) :
  ∀ t : OffsetTracker, partition_locks t = ∅ → complete_all its t = t.
Proof.
  induction its as [|it its IH]; intros t Ht; [reflexivity|].
  change (complete_all (it :: its) t)
    with (complete_all its (snd (complete_offset (partition it) (offset it) t))).
  rewrite complete_offset_unassigned by (rewrite Ht; apply not_elem_of_empty).
  apply IH, Ht.
Qed.

(** What any run of a worker does to the pool, whatever the fuel, the
    flag and the index: it logs worker events for some items and the
    tracker has seen [complete_offset] for exactly those. *)
Lemma worker_run_effect (fuel w : nat) (shutdown : bool) (pool : pool_state) :
  ∃ its,
    log (snd (worker_run fuel w shutdown pool)) = log pool ++ worker_events w its
    ∧ offset_tracker (snd (worker_run fuel w shutdown pool))
      = complete_all its (offset_tracker pool).
Proof.
  destruct shutdown.
  - exists []. destruct fuel; cbn; rewrite app_nil_r; auto.
  - destruct (queues pool !! w) as [q|] eqn:Hq.
    + destruct (worker_run_spec w (items q) fuel pool q Hq eq_refl)
        as (k & r & pool' & Hrun & Hlog & Htr & _).
      exists (take k (items q)). rewrite Hrun. auto.
    + exists []. destruct fuel; cbn [worker_run].
      * cbn. rewrite app_nil_r. auto.
      * unfold bind, try_except, on_queue. rewrite Hq. cbn. rewrite app_nil_r. auto.
Qed.

(** ** The commit loop *)

Lemma mark_all_cons (p : Partition) (o : Z) (l : list (Partition * Z)) (pool : pool_state) :
  mark_all ((p, o) :: l) pool =
    let pool1 := with_log pool (log pool ++
                   [EvMarkCommitted p o (last_committed_of (offset_tracker pool) p)]) in
    match mark_committed p o (offset_tracker pool) with
    | (Ok _, t) => mark_all l (with_tracker pool1 t)
    | (Raise e, t) => (Raise e, with_tracker pool1 t)
    end.
Proof.
  cbn [mark_all]. unfold bind, get_state, emit, on_tracker. cbn.
  destruct (mark_committed p o (offset_tracker pool)) as [[u|e] t]; reflexivity.
Qed.

(** Marking the entries of a mapping, one partition at most once, each
    value above the partition's checkpoint: every call is made with a
    value above the checkpoint of that moment and no checkpoint goes
    down. *)
Lemma mark_all_spec (l : list (Partition * Z)) :
  ∀ pool : pool_state,
    NoDup l.*1 →
    (∀ p o, (p, o) ∈ l → last_committed_of (offset_tracker pool) p < o) →
    ∃ new,
      log (snd (mark_all l pool)) = log pool ++ new
      ∧ Forall mark_increases new
      ∧ ∀ p, last_committed_of (offset_tracker pool) p
             <= last_committed_of (offset_tracker (snd (mark_all l pool))) p.
Proof.
  induction l as [|[p o] l IH]; intros pool Hnd Hgt.
  - exists []. cbn. rewrite app_nil_r. split; [reflexivity|].
    split; [constructor | intros; lia].
  - rewrite mark_all_cons. cbv zeta.
    assert (last_committed_of (offset_tracker pool) p < o) as Hpo by (apply Hgt; left).
    destruct (decide (p ∈ partition_locks (offset_tracker pool))) as [Hp|Hp].
    + rewrite mark_committed_assigned by exact Hp.
      set (pool1 := with_tracker _ _).
      cbn in Hnd. apply NoDup_cons in Hnd as [Hnin Hnd].
      assert (∀ p' o', (p', o') ∈ l → last_committed_of (offset_tracker pool1) p' < o')
        as Hgt1.
      { intros p' o' Hin. unfold pool1. cbn [offset_tracker with_tracker].
        unfold last_committed_of at 1. cbn [last_committed].
        rewrite lookup_insert_ne.
        - apply Hgt. right. exact Hin.
        - intros ->. apply Hnin. apply list_elem_of_fmap. exists (p', o'). auto. }
      destruct (IH pool1 Hnd Hgt1) as (new & Hlog & Hall & Hmono).
      exists (EvMarkCommitted p o (last_committed_of (offset_tracker pool) p) :: new).
      split; [rewrite Hlog; unfold pool1; cbn; rewrite <- app_assoc; reflexivity|].
      split; [constructor; [exact Hpo | exact Hall]|].
      intros q. etransitivity; [|apply Hmono].
      unfold pool1. cbn [offset_tracker with_tracker].
      unfold last_committed_of at 2. cbn [last_committed]. rewrite lookup_insert.
      case_decide as Hpq; [subst q; cbn; lia | reflexivity].
    + rewrite mark_committed_unassigned by exact Hp. cbn.
      exists [EvMarkCommitted p o (last_committed_of (offset_tracker pool) p)].
      split; [reflexivity|]. split; [repeat constructor; exact Hpo | intros; lia].
Qed.

Lemma try_except_ret_state {S A} (m : M S A) (catches : exn -> bool) (a : A) (s : S) :
  snd (try_except m catches (fun _ => ret a) s) = snd (m s).
Proof.
  unfold try_except, ret. destruct (m s) as [[x|e] s']; [reflexivity|].
  destruct (catches e); reflexivity.
Qed.

(** One turn of the commit loop. *)
Lemma commit_iteration_spec (pool : pool_state) :
  ∃ new,
    log (snd (commit_iteration pool)) = log pool ++ new
    ∧ Forall mark_increases new
    ∧ ∀ p, last_committed_of (offset_tracker pool) p
           <= last_committed_of (offset_tracker (snd (commit_iteration pool))) p.
Proof.
  remember (snd (commit_iteration pool)) as pool' eqn:Ep.
  unfold commit_iteration in Ep. rewrite try_except_ret_state in Ep.
  unfold bind at 1, on_tracker in Ep.
  destruct (get_committable_offsets (offset_tracker pool)) as [rc t'] eqn:E.
  destruct (get_committable_offsets_spec _ _ _ E) as [(_ & _ & Hlc & _) Hres].
  assert (∀ p, last_committed_of t' p = last_committed_of (offset_tracker pool) p) as Hsame
    by (intros p; unfold last_committed_of; rewrite Hlc; reflexivity).
  assert (pool' = with_tracker pool t' →
          ∃ new, log pool' = log pool ++ new ∧ Forall mark_increases new
                 ∧ ∀ p, last_committed_of (offset_tracker pool) p
                        <= last_committed_of (offset_tracker pool') p) as Hidle.
  { intros ->. exists []. rewrite app_nil_r. split; [reflexivity|].
    split; [constructor|]. intros p. cbn [offset_tracker with_tracker].
    rewrite Hsame. lia. }
  destruct rc as [m|e]; [|apply Hidle; exact Ep].
  unfold bind at 1, get_state in Ep. cbn [commit_function with_tracker] in Ep.
  destruct (commit_function pool) as [f|]; [|apply Hidle; exact Ep].
  case_decide as Hm; [apply Hidle; exact Ep|].
  unfold bind at 1, emit in Ep. unfold bind at 1, call in Ep.
  set (pool1 := with_log _ _) in Ep.
  assert (log pool1 = log pool ++ [EvCommitted m]) as Hlog1 by reflexivity.
  assert (∀ p, last_committed_of (offset_tracker pool1) p
               = last_committed_of (offset_tracker pool) p) as Hsame1
    by (intros p; unfold pool1; cbn [offset_tracker with_tracker with_log]; apply Hsame).
  destruct (f m) as [u|e].
  2:{ cbn [snd] in Ep. subst pool'. exists [EvCommitted m]. split; [exact Hlog1|].
      split; [repeat constructor|]. intros p. rewrite Hsame1. lia. }
  assert (∀ p o, (p, o) ∈ map_to_list m → last_committed_of (offset_tracker pool1) p < o)
    as Hgt.
  { intros p o Hin. apply elem_of_map_to_list in Hin. rewrite Hres in Hin.
    destruct (committable_for_spec _ _ _ _ Hin) as (_ & _ & Hlt & _).
    rewrite Hsame1. exact Hlt. }
  destruct (mark_all_spec (map_to_list m) pool1 (NoDup_fst_map_to_list m) Hgt)
    as (new & Hlog & Hall & Hmono).
  rewrite <- Ep in Hlog, Hmono.
  exists (EvCommitted m :: new). rewrite Hlog, Hlog1, <- app_assoc.
  split; [reflexivity|]. split; [constructor; [exact I | exact Hall]|].
  intros p. rewrite <- Hsame1. apply Hmono.
Qed.

(** ** What the threads do to the log and the checkpoints *)

Lemma worker_events_harmless (w : nat) (its : list work_item) :
  Forall mark_increases (worker_events w its) ∧ Forall not_committed (worker_events w its).
Proof.
  induction its as [|it its [IH1 IH2]]; [split; constructor|].
  rewrite worker_events_cons. split; repeat (constructor; [exact I|]); assumption.
Qed.

Lemma run_pool_op_marks (op : pool_op) (pool : pool_state) :
  ∃ new,
    log (run_pool_op hash op pool) = log pool ++ new
    ∧ Forall mark_increases new
    ∧ ∀ p, last_committed_of (offset_tracker pool) p
           <= last_committed_of (offset_tracker (run_pool_op hash op pool)) p.
Proof.
  destruct op as [group_key it|fuel w shutdown|]; cbn [run_pool_op].
  - destruct (submit_effect pool group_key it) as [Hlog Hlc].
    exists []. rewrite app_nil_r. split; [exact Hlog|]. split; [constructor|].
    intros p. unfold last_committed_of. rewrite Hlc. lia.
  - destruct (worker_run_effect fuel w shutdown pool) as (its & Hlog & Htr).
    exists (worker_events w its). split; [exact Hlog|].
    split; [apply worker_events_harmless|].
    intros p. unfold last_committed_of. rewrite Htr.
    destruct (complete_all_last_committed its (offset_tracker pool)) as [-> _]. lia.
  - apply commit_iteration_spec.
Qed.

(** C7.  Over any interleaving of submissions, worker runs and turns
    of the commit loop, every [mark_committed] call the commit loop
    makes carries a value above the checkpoint the partition has at
    that moment, and no partition's [last_committed] goes down. *)
Theorem checkpoints_never_decrease (ops : list pool_op) (pool : pool_state) :
  ∃ new,
    log (run_pool_ops hash ops pool) = log pool ++ new
    ∧ Forall mark_increases new
    ∧ ∀ p, last_committed_of (offset_tracker pool) p
           <= last_committed_of (offset_tracker (run_pool_ops hash ops pool)) p.
Proof.
  revert pool. induction ops as [|op ops IH]; intros pool.
  - exists []. cbn. rewrite app_nil_r. split; [reflexivity|].
    split; [constructor | intros; lia].
  - destruct (run_pool_op_marks op pool) as (new1 & Hlog1 & Hall1 & Hmono1).
    destruct (IH (run_pool_op hash op pool)) as (new2 & Hlog2 & Hall2 & Hmono2).
    exists (new1 ++ new2).
    change (run_pool_ops hash (op :: ops) pool)
      with (run_pool_ops hash ops (run_pool_op hash op pool)).
    rewrite Hlog2, Hlog1, <- app_assoc. split; [reflexivity|].
    split; [apply Forall_app; auto|].
    intros p. etransitivity; [apply Hmono1 | apply Hmono2].
Qed.

(** ** Flushing *)

Lemma emptied_id (q : lane) : items q = [] → emptied q = q.
Proof. destruct q as [its sh]. cbn. intros ->. reflexivity. Qed.

(** Draining one queue with fuel beyond its length: every item is
    taken off and logged as discarded, nothing else changes. *)
Lemma drain_queue_spec (i : nat) (its : list work_item) :
  ∀ (fuel : nat) (c : Z) (pool : pool_state) (q : lane),
    queues pool !! i = Some q → items q = its → (length its < fuel)%nat →
    ∃ pool',
      drain_queue fuel i c pool = (Ok (c + Z.of_nat (length its)), pool')
      ∧ queues pool' = <[i := emptied q]> (queues pool)
      ∧ log pool' = log pool ++ map EvDiscarded its
      ∧ offset_tracker pool' = offset_tracker pool.
Proof.
  induction its as [|it rest IH]; intros fuel c pool q Hq Hits Hlen;
    (destruct fuel as [|fuel]; [cbn in Hlen; lia|]); cbn [drain_queue].
  - unfold bind at 1, on_queue. rewrite Hq.
    assert (queue_empty q = true) as -> by (apply bool_decide_eq_true_2; exact Hits).
    exists (with_queues pool (<[i := q]> (queues pool))).
    split; [cbn; rewrite Z.add_0_r; reflexivity|].
    rewrite (emptied_id q Hits). cbn. rewrite app_nil_r. auto.
  - unfold bind at 1, on_queue at 1. rewrite Hq.
    assert (queue_empty q = false) as ->
      by (apply bool_decide_eq_false_2; rewrite Hits; discriminate).
    assert (<[i := q]> (queues pool) = queues pool) as -> by (apply list_insert_id, Hq).
    rewrite with_queues_id.
    unfold bind at 1, try_except, bind at 1, on_queue. rewrite Hq.
    unfold queue_get_nowait. rewrite Hits. unfold bind at 1, emit, ret.
    set (pool1 := with_log _ _).
    assert (i < length (queues pool))%nat as Hi by (eapply lookup_lt_Some; exact Hq).
    assert (queues pool1 !! i = Some (mkQueue rest (is_shutdown q))) as Hq1
      by (cbn; apply list_lookup_insert_eq; exact Hi).
    destruct (IH fuel (c + 1) pool1 _ Hq1 eq_refl) as (pool' & Hrun & Hqs & Hlog & Htr).
    { cbn in Hlen. lia. }
    exists pool'. split.
    { rewrite Hrun. do 2 f_equal. cbn [length]. lia. }
    split; [rewrite Hqs; cbn; apply list_insert_insert_eq|].
    split; [rewrite Hlog; cbn; rewrite <- app_assoc; reflexivity | exact Htr].
Qed.

(** Draining the queues from index [a] on. *)
Lemma drain_queues_spec (n : nat) :
  ∀ (a : nat) (c : Z) (pool : pool_state),
    (a + n = length (queues pool))%nat →
    ∃ c' pool',
      drain_queues (seq a n) c pool = (Ok c', pool')
      ∧ queues pool' = take a (queues pool) ++ map emptied (drop a (queues pool))
      ∧ log pool' = log pool
                    ++ map EvDiscarded (concat (map items (drop a (queues pool))))
      ∧ offset_tracker pool' = offset_tracker pool.
Proof.
  induction n as [|n IH]; intros a c pool Hlen.
  - exists c, pool. cbn.
    rewrite drop_ge, firstn_all2 by lia. cbn. rewrite !app_nil_r. auto.
  - assert (a < length (queues pool))%nat as Ha by lia.
    destruct (lookup_lt_is_Some_2 _ _ Ha) as [q Hq].
    cbn [seq drain_queues]. unfold bind at 1, get_state. rewrite Hq. cbn [default].
    unfold bind at 1, id.
    destruct (drain_queue_spec a (items q) (S (length (items q))) c pool q Hq eq_refl)
      as (pool1 & Hrun1 & Hqs1 & Hlog1 & Htr1); [lia|].
    rewrite Hrun1.
    destruct (IH (S a) (c + Z.of_nat (length (items q))) pool1)
      as (c' & pool' & Hrun & Hqs & Hlog & Htr).
    { rewrite Hqs1, length_insert. lia. }
    exists c', pool'. split; [exact Hrun|].
    assert (drop (S a) (queues pool1) = drop (S a) (queues pool)) as Hdrop
      by (rewrite Hqs1; apply drop_insert_lt; lia).
    rewrite (drop_S _ _ _ Hq).
    split; [|split].
    + rewrite Hqs, Hdrop.
      rewrite (take_S_r (queues pool1) a (emptied q))
        by (rewrite Hqs1; apply list_lookup_insert_eq; exact Ha).
      rewrite Hqs1, take_insert_ge by lia.
      rewrite <- app_assoc. reflexivity.
    + rewrite Hlog, Hlog1, Hdrop. cbn [map concat]. rewrite map_app, <- app_assoc.
      reflexivity.
    + rewrite Htr. exact Htr1.
Qed.

(** The wait never changes the pool, and reports success only on
    empty queues. *)
Lemma wait_loop_spec (clock : nat -> Z) (start timeout : Z) (pool : pool_state) (fuel : nat) :
  ∀ k, ∃ w,
    wait_loop fuel clock k start timeout pool = (Ok w, pool)
    ∧ (w = Some true → total_items pool = 0).
Proof.
  induction fuel as [|fuel IH]; intros k; cbn [wait_loop].
  - exists None. split; [reflexivity | discriminate].
  - case_decide as Ht.
    + unfold bind, get_state. case_decide as Hz.
      * exists (Some true). split; [reflexivity | intros _; exact Hz].
      * apply IH.
    + exists (Some false). split; [reflexivity | discriminate].
Qed.

(** The wait ends once the queues are empty or the clock has moved
    [timeout] past the start. *)
Lemma wait_loop_returns (clock : nat -> Z) (start timeout : Z) (pool : pool_state) (fuel : nat) :
  ∀ (k j : nat),
    (j < fuel)%nat → timeout <= clock (k + j)%nat - start →
    ∃ b, wait_loop fuel clock k start timeout pool = (Ok (Some b), pool).
Proof.
  induction fuel as [|fuel IH]; intros k j Hj Hclock; [lia|].
  cbn [wait_loop]. case_decide as Ht.
  - unfold bind, get_state. case_decide as Hz; [exists true; reflexivity|].
    destruct j as [|j]; [rewrite Nat.add_0_r in Hclock; lia|].
    apply (IH (S k) j); [lia|].
    replace (S k + j)%nat with (k + S j)%nat by lia. exact Hclock.
  - exists false. reflexivity.
Qed.

(** The forced path of [flush], taken without waiting. *)
Lemma flush_forced_spec (fuel : nat) (clock : nat -> Z) (pool : pool_state) :
  ∃ pool',
    flush fuel clock None pool = (Ok (Some false), pool')
    ∧ offset_tracker pool' = OffsetTracker_init
    ∧ queues pool' = map emptied (queues pool)
    ∧ log pool' = log pool ++ map EvDiscarded (concat (map items (queues pool))).
Proof.
  destruct (drain_queues_spec (length (queues pool)) 0 0 pool eq_refl)
    as (c' & pool1 & Hrun & Hqs & Hlog & Htr).
  rewrite take_0, drop_0 in Hqs. rewrite drop_0 in Hlog. cbn [app] in Hqs.
  exists (with_tracker pool1 OffsetTracker_init).
  unfold flush. unfold bind at 1, ret at 1. unfold bind at 1.
  unfold bind at 1, get_state. rewrite Hrun.
  unfold bind, on_tracker, clear, ret. auto.
Qed.

(** A wait that reports a timeout leads to the forced path. *)
Lemma flush_after_timeout (fuel : nat) (clock : nat -> Z) (t : Z) (pool : pool_state) :
  wait_until_empty fuel clock t pool = (Ok (Some false), pool) →
  flush fuel clock (Some t) pool = flush fuel clock None pool.
Proof.
  intros Hw. unfold flush. unfold bind at 1. rewrite Hw.
  unfold bind at 4, ret at 4. reflexivity.
Qed.

(** What [flush] leaves behind. *)
Lemma flush_spec (fuel : nat) (clock : nat -> Z) (timeout : option Z) (pool : pool_state) :
  ∃ w pool',
    flush fuel clock timeout pool = (Ok w, pool')
    ∧ match w with
      | None => pool' = pool
      | Some success =>
          offset_tracker pool' = OffsetTracker_init
          ∧ if success
            then queues pool' = queues pool ∧ log pool' = log pool
            else queues pool' = map emptied (queues pool)
                 ∧ log pool' = log pool
                               ++ map EvDiscarded (concat (map items (queues pool)))
      end.
Proof.
  destruct (flush_forced_spec fuel clock pool) as (poolF & HrunF & HtrF & HqsF & HlogF).
  destruct timeout as [t|].
  - destruct (wait_loop_spec clock (clock O) t pool fuel 1) as (w & Hwait & Hw).
    destruct w as [[|]|].
    + exists (Some true), (with_tracker pool OffsetTracker_init).
      unfold flush. unfold bind at 1, wait_until_empty. rewrite Hwait.
      unfold bind, on_tracker, clear, ret. auto.
    + exists (Some false), poolF. rewrite (flush_after_timeout _ _ _ _ Hwait). auto.
    + exists None, pool. unfold flush. unfold bind at 1, wait_until_empty. rewrite Hwait.
      auto.
  - exists (Some false), poolF. auto.
Qed.

(** C8.  With a clock that does not run backwards between its first
    two readings, [flush(timeout=0)] returns [False]; every item that
    was pending in any lane queue is gone from it and logged as
    discarded, none is processed, and the tracker is back in its
    initial state: [all_offsets], [outstanding], [last_committed] and
    [partition_locks] are all empty. *)
Theorem flush_zero_discards_pending (fuel : nat) (clock : nat -> Z) (pool : pool_state) :
  fuel ≠ O → clock O <= clock 1%nat →
  ∃ pool',
    flush fuel clock (Some 0) pool = (Ok (Some false), pool')
    ∧ offset_tracker pool' = OffsetTracker_init
    ∧ queues pool' = map emptied (queues pool)
    ∧ log pool' = log pool ++ map EvDiscarded (concat (map items (queues pool))).
Proof.
  intros Hfuel Hclock.
  assert (wait_until_empty fuel clock 0 pool = (Ok (Some false), pool)) as Hwait.
  { destruct fuel as [|fuel]; [contradiction|].
    unfold wait_until_empty. cbn [wait_loop].
    rewrite decide_False by lia. reflexivity. }
  rewrite (flush_after_timeout _ _ _ _ Hwait). apply flush_forced_spec.
Qed.

(** ** After a flush *)

Lemma get_committable_offsets_init :
  get_committable_offsets (OffsetTracker_init : @OffsetTracker Partition _ _)
  = (Ok ∅, OffsetTracker_init).
Proof.
  unfold get_committable_offsets, bind, get_state. cbn [all_offsets OffsetTracker_init].
  rewrite map_to_list_empty. reflexivity.
Qed.

(** On a cleared tracker no thread of the pool brings anything back:
    the tracker stays cleared and nothing reaches the commit
    function. *)
Lemma cleared_run_pool_op (op : pool_op) (pool : pool_state) :
  offset_tracker pool = OffsetTracker_init →
  offset_tracker (run_pool_op hash op pool) = OffsetTracker_init
  ∧ ∃ new, log (run_pool_op hash op pool) = log pool ++ new ∧ Forall not_committed new.
Proof.
  intros Ht. destruct op as [group_key it|fuel w shutdown|]; cbn [run_pool_op].
  - rewrite submit_unassigned by (rewrite Ht; apply not_elem_of_empty).
    split; [exact Ht|]. exists []. rewrite app_nil_r. split; [reflexivity | constructor].
  - destruct (worker_run_effect fuel w shutdown pool) as (its & Hlog & Htr).
    split.
    + rewrite Htr, Ht. apply complete_all_unassigned. reflexivity.
    + exists (worker_events w its). split; [exact Hlog | apply worker_events_harmless].
  - assert (snd (commit_iteration pool) = pool) as ->.
    { unfold commit_iteration. rewrite try_except_ret_state.
      unfold bind at 1, on_tracker. rewrite Ht, get_committable_offsets_init.
      rewrite <- Ht, with_tracker_id. unfold bind, get_state.
      destruct (commit_function pool); [|reflexivity].
      rewrite decide_True by reflexivity. reflexivity. }
    split; [exact Ht|]. exists []. rewrite app_nil_r. split; [reflexivity | constructor].
Qed.

Lemma cleared_run_pool_ops (ops : list pool_op) :
  ∀ pool : pool_state,
    offset_tracker pool = OffsetTracker_init →
    offset_tracker (run_pool_ops hash ops pool) = OffsetTracker_init
    ∧ ∃ new, log (run_pool_ops hash ops pool) = log pool ++ new ∧ Forall not_committed new.
Proof.
  induction ops as [|op ops IH]; intros pool Ht.
  - split; [exact Ht|]. exists []. cbn. rewrite app_nil_r. split; [reflexivity | constructor].
  - destruct (cleared_run_pool_op op pool Ht) as (Ht1 & new1 & Hlog1 & Hall1).
    destruct (IH _ Ht1) as (Ht2 & new2 & Hlog2 & Hall2).
    change (run_pool_ops hash (op :: ops) pool)
      with (run_pool_ops hash ops (run_pool_op hash op pool)).
    split; [exact Ht2|]. exists (new1 ++ new2).
    rewrite Hlog2, Hlog1, <- app_assoc. split; [reflexivity | apply Forall_app; auto].
Qed.

(** A whole turn of the commit loop is the read followed by
    [commit_after_read]. *)
Lemma commit_iteration_split (pool : pool_state) :
  commit_iteration pool =
    match on_tracker get_committable_offsets pool with
    | (Ok committable, pool1) => commit_after_read committable pool1
    | (Raise e, pool1) => if is_Exception e then (Ok tt, pool1) else (Raise e, pool1)
    end.
Proof.
  unfold commit_iteration, commit_after_read, try_except. unfold bind at 1.
  destruct (on_tracker get_committable_offsets pool) as [[m|e] pool1]; reflexivity.
Qed.

(** [flush] comes back once the queues are empty or the clock has
    moved [timeout] past its first reading; without a timeout it does
    not wait. *)
Lemma flush_wait_ends (fuel : nat) (clock : nat -> Z) (timeout : option Z) (pool : pool_state) :
  (∀ t, timeout = Some t →
        (fuel ≠ O ∧ total_items pool = 0)
        ∨ ∃ j, (j < fuel)%nat ∧ t <= clock (S j) - clock O) →
  ∃ success pool', flush fuel clock timeout pool = (Ok (Some success), pool').
Proof.
  intros Hend.
  destruct (flush_forced_spec fuel clock pool) as (poolF & HrunF & _).
  destruct timeout as [t|]; [|eauto].
  assert (∃ b, wait_until_empty fuel clock t pool = (Ok (Some b), pool)) as [b Hb].
  { destruct (Hend t eq_refl) as [[Hfuel Hz]|(j & Hj & Ht)].
    - destruct fuel as [|fuel]; [contradiction|].
      unfold wait_until_empty. cbn [wait_loop]. case_decide.
      + unfold bind, get_state. rewrite decide_True by exact Hz. eauto.
      + eauto.
    - exact (wait_loop_returns clock (clock O) t pool fuel 1 j Hj Ht). }
  destruct b.
  - exists true, (with_tracker pool OffsetTracker_init).
    unfold flush. unfold bind at 1. rewrite Hb.
    unfold bind, on_tracker, clear, ret. reflexivity.
  - exists false, poolF. rewrite (flush_after_timeout _ _ _ _ Hb). exact HrunF.
Qed.

(** [flush] reports [True] only when it found every queue empty. *)
Lemma flush_true_only_when_empty (fuel : nat) (clock : nat -> Z) (timeout : option Z)
    (pool pool' : pool_state) :
  flush fuel clock timeout pool = (Ok (Some true), pool') → total_items pool = 0.
Proof.
  intros Hrun.
  destruct (flush_forced_spec fuel clock pool) as (poolF & HrunF & _).
  destruct timeout as [t|]; [|rewrite HrunF in Hrun; discriminate].
  destruct (wait_loop_spec clock (clock O) t pool fuel 1) as (w & Hwait & Hw).
  destruct w as [[|]|].
  - apply Hw. reflexivity.
  - rewrite (flush_after_timeout fuel clock t pool Hwait), HrunF in Hrun. discriminate.
  - unfold flush in Hrun. unfold bind at 1, wait_until_empty in Hrun.
    rewrite Hwait in Hrun. discriminate.
Qed.

(** On a cleared tracker the rest of a turn that holds a mapping read
    earlier may still call the commit function, but its
    [mark_committed] finds no lock and the tracker stays cleared. *)
Lemma commit_after_read_cleared (m : gmap Partition Z) (pool : pool_state) :
  offset_tracker pool = OffsetTracker_init →
  offset_tracker (snd (commit_after_read m pool)) = OffsetTracker_init.
Proof.
  intros Ht. unfold commit_after_read. rewrite try_except_ret_state.
  unfold bind at 1, get_state.
  destruct (commit_function pool) as [f|]; [|exact Ht].
  case_decide; [exact Ht|].
  unfold bind at 1, emit. unfold bind at 1, call.
  destruct (f m) as [u|e]; [|exact Ht].
  destruct (map_to_list m) as [|[p o] l]; [exact Ht|].
  rewrite mark_all_cons. cbv zeta.
  cbn [offset_tracker with_log].
  rewrite mark_committed_unassigned by (rewrite Ht; apply not_elem_of_empty).
  exact Ht.
Qed.

(** C9, as amended.  Whatever the timeout, once the queues are empty or
    the clock has moved the timeout past its first reading, [flush]
    returns, [True] or [False], without raising, and the tracker is
    then in its initial state: [all_offsets], [outstanding],
    [last_committed] and the locks are empty, also when the wait
    succeeded.  From there on, until the next reassignment, whatever
    the ingress, the workers and the turns of the commit loop that
    start after the flush do, the tracker stays cleared and the commit
    function is handed nothing; the rest of a turn that read its
    mapping before the flush leaves the tracker cleared too. *)
Theorem flush_always_clears (fuel : nat) (clock : nat -> Z) (timeout : option Z)
    (pool : pool_state) :
  (∀ t, timeout = Some t →
        (fuel ≠ O ∧ total_items pool = 0)
        ∨ ∃ j, (j < fuel)%nat ∧ t <= clock (S j) - clock O) →
  ∃ success pool',
    flush fuel clock timeout pool = (Ok (Some success), pool')
    ∧ offset_tracker pool' = OffsetTracker_init
    ∧ (success = true → total_items pool = 0 ∧ queues pool' = queues pool)
    ∧ (∀ ops : list pool_op,
         offset_tracker (run_pool_ops hash ops pool') = OffsetTracker_init
         ∧ ∃ new, log (run_pool_ops hash ops pool') = log pool' ++ new
                  ∧ Forall not_committed new)
    ∧ ∀ m, offset_tracker (snd (commit_after_read m pool')) = OffsetTracker_init.
Proof.
  intros Hend.
  destruct (flush_wait_ends fuel clock timeout pool Hend) as (success & pool' & Hrun).
  destruct (flush_spec fuel clock timeout pool) as (w & pool'' & Hrun' & Hw).
  rewrite Hrun in Hrun'. injection Hrun' as <- <-.
  destruct Hw as [Ht Hrest].
  exists success, pool'. split; [exact Hrun|]. split; [exact Ht|]. split; [|split].
  - intros ->. destruct Hrest as [Hqs _]. split; [|exact Hqs].
    exact (flush_true_only_when_empty _ _ _ _ _ Hrun).
  - intros ops. apply cleared_run_pool_ops, Ht.
  - intros m. apply commit_after_read_cleared, Ht.
Qed.

(** [flush] returns once the queues are empty or the clock has moved
    [timeout] past its first reading; without a timeout it returns at
    once. *)
Lemma flush_returns (fuel : nat) (clock : nat -> Z) (timeout : option Z) (pool : pool_state) :
  (∀ t, timeout = Some t → ∃ j, (j < fuel)%nat ∧ t <= clock (S j) - clock O) →
  ∃ success pool', flush fuel clock timeout pool = (Ok (Some success), pool').
Proof.
  intros Hclock.
  destruct (flush_spec fuel clock timeout pool) as (w & pool' & Hrun & _).
  destruct w as [b|]; [eauto|]. exfalso.
  destruct timeout as [t|].
  - destruct (Hclock t eq_refl) as (j & Hj & Ht).
    destruct (wait_loop_returns clock (clock O) t pool fuel 1 j Hj Ht) as [b Hb].
    unfold flush in Hrun. unfold bind at 1, wait_until_empty in Hrun. rewrite Hb in Hrun.
    destruct b; unfold bind in Hrun;
      repeat match type of Hrun with
             | context [match ?x with _ => _ end] => destruct x as [[?|?] ?]
             end; cbn in Hrun; try discriminate.
  - destruct (flush_forced_spec fuel clock pool) as (poolF & HrunF & _).
    rewrite HrunF in Hrun. discriminate.
Qed.

End PoolProofs.

(** * Properties of the processing strategy *)

Section StrategyProofs.

Context {Partition : Type} `{Countable Partition}.
Context {T Payload : Type}.
Context (hash : string -> Z).

Local Abbreviation strategy := (@Strategy Partition _ _ T Payload) (only parsing).
Local Abbreviation raw_message := (@Message Partition Payload) (only parsing).

Lemma on_pool_tracker_unassigned_add (self : strategy) (p : Partition) (o : Z) :
  p ∉ partition_locks (offset_tracker (queue_pool self)) →
  on_pool (on_tracker (add_offset p o)) self = (Raise UnassignedPartitionError, self).
Proof.
  intros Hp. unfold on_pool, on_tracker. rewrite add_offset_unassigned by exact Hp.
  rewrite with_tracker_id. destruct self; reflexivity.
Qed.

(** The decode-skip path: the inner [except UnassignedPartitionError]
    swallows the error. *)
Lemma submit_skip_path_recovers (self : strategy) (msg : raw_message)
    (p : Partition) (o : Z) :
  shutdown_event self = false →
  value msg = BrokerValue p o →
  p ∉ partition_locks (offset_tracker (queue_pool self)) →
  decoder self (payload msg) = Ok None →
  Strategy_submit hash msg self = (Ok tt, self).
Proof.
  intros Hsh Hval Hp Hdec.
  unfold Strategy_submit. unfold bind at 1, get_state. rewrite Hsh.
  unfold try_except at 1. unfold bind at 1, call. rewrite Hdec, Hval.
  unfold try_except, bind. rewrite on_pool_tracker_unassigned_add by exact Hp.
  reflexivity.
Qed.

(** The normal path: [FixedQueuePool.submit] swallows the error. *)
Lemma submit_normal_path_recovers (self : strategy) (msg : raw_message)
    (p : Partition) (o : Z) (res : T) (group_key : string) :
  shutdown_event self = false →
  value msg = BrokerValue p o →
  p ∉ partition_locks (offset_tracker (queue_pool self)) →
  decoder self (payload msg) = Ok (Some res) →
  grouping_fn self res = Ok group_key →
  Strategy_submit hash msg self = (Ok tt, self).
Proof.
  intros Hsh Hval Hp Hdec Hgrp.
  unfold Strategy_submit. unfold bind at 1, get_state. rewrite Hsh.
  unfold try_except at 1. unfold bind at 1, call. rewrite Hdec, Hval.
  unfold bind at 1. rewrite Hgrp. unfold on_pool.
  rewrite submit_unassigned by exact Hp. destruct self; reflexivity.
Qed.

(** C2 fails on the recovery path.  When the decoder raises an
    [Exception] on a message whose partition has no lock, the handler's
    own [add_offset] raises [UnassignedPartitionError], nothing catches
    it, and [submit] hands it to its caller. *)
Theorem submit_recovery_path_propagates (self : strategy) (msg : raw_message)
    (p : Partition) (o : Z) (e : exn) :
  shutdown_event self = false →
  value msg = BrokerValue p o →
  p ∉ partition_locks (offset_tracker (queue_pool self)) →
  decoder self (payload msg) = Raise e →
  is_Exception e = true →
  Strategy_submit hash msg self = (Raise UnassignedPartitionError, self).
Proof.
  intros Hsh Hval Hp Hdec Hexc.
  unfold Strategy_submit. unfold bind at 1, get_state. rewrite Hsh.
  unfold try_except at 1. unfold bind at 1, call. rewrite Hdec, Hexc, Hval.
  unfold bind. rewrite on_pool_tracker_unassigned_add by exact Hp.
  reflexivity.
Qed.

End StrategyProofs.

(** * The pool and the strategy on concrete calls *)

Lemma ex_pool_queue (e : exn) :
  queues (ex_pool e) !! 0%nat
  = Some (mkQueue [ex_item 0 5 1; ex_item 0 6 2] false).
Proof. vm_compute. reflexivity. Qed.

(** C5 as stated fails: a callback that raises outside [Exception]
    ends the loop.  The first item is completed, the exception leaves
    [run], and the second item stays in the queue. *)
Lemma worker_stops_on_BaseException_counterexample :
  let pool := ex_pool (OtherBaseException "SystemExit") in
  fst (worker_run 3 0 false pool) = Raise (OtherBaseException "SystemExit")
  ∧ queues (snd (worker_run 3 0 false pool)) = [mkQueue [ex_item 0 6 2] false]
  ∧ log (snd (worker_run 3 0 false pool))
    = [EvDequeued 0 (ex_item 0 5 1); EvProcessed 0 (ex_item 0 5 1);
       EvCompleted 0 (ex_item 0 5 1)].
Proof. vm_compute. auto. Qed.

Lemma worker_completes_each_item_witness :
  let pool := ex_pool (OtherException "ValueError") in
  ∃ pool',
    worker_run 3 0 false pool = (Ok (Some Blocked), pool')
    ∧ log pool' = log pool ++ worker_events 0 [ex_item 0 5 1; ex_item 0 6 2].
Proof.
  intros pool.
  destruct (worker_completes_each_item 3 0 pool _ (ex_pool_queue _))
    as (k & r & pool' & Hrun & Hlog & _ & _ & Hall).
  cbn [items is_shutdown] in Hlog, Hall.
  destruct Hall as [-> ->].
  - intros it e Hin Hcall.
    apply elem_of_cons in Hin as [->|Hin].
    + vm_compute in Hcall. injection Hcall as <-. reflexivity.
    + apply list_elem_of_singleton in Hin as ->. vm_compute in Hcall. discriminate.
  - cbn. lia.
  - exists pool'. split; [exact Hrun | exact Hlog].
Defined.

Lemma submit_unassigned_is_dropped_witness :
  let pool := ex_pool (OtherException "ValueError") in
  FixedQueuePool_submit ex_hash "b" (ex_item 1 7 3) pool = (Ok tt, pool).
Proof.
  intros pool.
  destruct (submit_unassigned_is_dropped ex_hash pool "b" (ex_item 1 7 3)) as (Hrun & _).
  - apply (bool_decide_eq_false_1 _). vm_compute. reflexivity.
  - exact Hrun.
Defined.

Lemma flush_zero_discards_pending_witness :
  let pool := ex_pool (OtherException "ValueError") in
  ∃ pool',
    flush 1 Z.of_nat (Some 0) pool = (Ok (Some false), pool')
    ∧ offset_tracker pool' = OffsetTracker_init
    ∧ queues pool' = [mkQueue [] false]
    ∧ log pool' = [EvDiscarded (ex_item 0 5 1); EvDiscarded (ex_item 0 6 2)].
Proof.
  intros pool.
  destruct (flush_zero_discards_pending 1 Z.of_nat pool) as (pool' & Hrun & Ht & Hqs & Hlog).
  - discriminate.
  - cbn. lia.
  - exists pool'. split; [exact Hrun|]. split; [exact Ht|].
    split; [rewrite Hqs | rewrite Hlog]; vm_compute; reflexivity.
Defined.

(** C9 as stated fails.  Both items are processed, so offset 6 is
    committable and not yet committed.  The commit loop reads the
    mapping {0: 6} (line 234); before it goes on, [flush] with a
    timeout of 10 finds the queues empty, returns [True] and clears the
    tracker; the commit loop then goes on with the mapping it holds and
    hands {0: 6} to the commit function (line 243), after the flush.
    Its [mark_committed] then fails on the missing lock and the turn
    ends. *)
Lemma flush_in_flight_commit_counterexample :
  ∃ pool1 pool2 pool3,
    on_tracker get_committable_offsets ex_processed_pool = (Ok {[0%nat := 6]}, pool1)
    ∧ flush 1 Z.of_nat (Some 10) pool1 = (Ok (Some true), pool2)
    ∧ offset_tracker pool2 = OffsetTracker_init
    ∧ Forall not_committed (log pool2)
    ∧ commit_after_read {[0%nat := 6]} pool2 = (Ok tt, pool3)
    ∧ drop (length (log pool2)) (log pool3)
      = [EvCommitted {[0%nat := 6]}; EvMarkCommitted 0%nat 6 (-1)].
Proof.
  eexists _, _, _.
  split; [vm_compute; reflexivity|].
  split; [vm_compute; reflexivity|].
  split; [vm_compute; reflexivity|].
  split; [vm_compute; repeat constructor|].
  split; [vm_compute; reflexivity|].
  vm_compute. reflexivity.
Qed.

(** A flush that succeeds: both items are processed, offset 6 is
    committable and not yet committed; [flush] with a timeout of 10
    finds the queues empty, returns [True], and clears the tracker all
    the same, so a turn of the commit loop that starts afterwards
    commits nothing. *)
Lemma flush_always_clears_witness :
  let pool := snd (worker_run 3 0 false (ex_pool (OtherException "ValueError"))) in
  committable_at (offset_tracker pool) 0%nat = Some 6
  ∧ ∃ pool',
      flush 1 Z.of_nat (Some 10) pool = (Ok (Some true), pool')
      ∧ offset_tracker pool' = OffsetTracker_init
      ∧ ∃ new, log (run_pool_ops ex_hash [PoolCommitIteration] pool') = log pool' ++ new
               ∧ Forall not_committed new.
Proof.
  intros pool. split; [vm_compute; reflexivity|].
  destruct (flush_always_clears ex_hash 1 Z.of_nat (Some 10) pool)
    as (success & pool' & Hrun & Ht & _ & Hops & _).
  - intros t _. left. split; [discriminate | vm_compute; reflexivity].
  - assert (fst (flush 1 Z.of_nat (Some 10) pool) = Ok (Some success)) as Hfst
      by (rewrite Hrun; reflexivity).
    vm_compute in Hfst. injection Hfst as <-.
    exists pool'. split; [exact Hrun|].
    split; [exact Ht|]. apply (Hops [PoolCommitIteration]).
Defined.

(** One turn of the commit loop after both items are processed: the
    mapping {0: 6} goes to the commit function and [mark_committed] is
    called with 6 on a partition whose checkpoint was -1. *)
Example commit_iteration_example :
  let pool := snd (worker_run 3 0 false (ex_pool (OtherException "ValueError"))) in
  drop 6 (log (snd (commit_iteration pool)))
  = [EvCommitted {[0%nat := 6]}; EvMarkCommitted 0%nat 6 (-1)].
Proof. vm_compute. reflexivity. Qed.

Lemma submit_recovery_path_propagates_witness :
  let self := ex_strategy (OtherException "ValueError") in
  Strategy_submit ex_hash (ex_message 1 7) self = (Raise UnassignedPartitionError, self).
Proof.
  intros self.
  apply (submit_recovery_path_propagates ex_hash self (ex_message 1 7) 1%nat 7
           (OtherException "ValueError")).
  - reflexivity.
  - reflexivity.
  - apply (bool_decide_eq_false_1 _). vm_compute. reflexivity.
  - reflexivity.
  - reflexivity.
Defined.

(** * More on the offset tracker *)

Section TrackerMore.

Context {Partition : Type} `{Countable Partition}.

Local Abbreviation tracker := (@OffsetTracker Partition _ _) (only parsing).

Lemma last_committed_of_eq (st st' : tracker) (p : Partition) :
  last_committed st' = last_committed st → last_committed_of st' p = last_committed_of st p.
Proof. unfold last_committed_of. intros ->. reflexivity. Qed.

(** X1.  Completing an offset a second time changes nothing at all, and
    completing never touches [all_offsets] or [last_committed]. *)
Theorem complete_offset_idempotent (st : tracker) (p : Partition) (o : Z) :
  let st1 := snd (complete_offset p o st) in
  complete_offset p o st1 = (Ok tt, st1)
  ∧ all_offsets st1 = all_offsets st
  ∧ last_committed st1 = last_committed st.
Proof.
  intros st1. unfold st1.
  destruct (decide (p ∈ partition_locks st)) as [Hp|Hp].
  - rewrite (complete_offset_assigned st p o Hp). cbn [snd].
    rewrite complete_offset_assigned by exact Hp.
    cbn [all_offsets outstanding last_committed partition_locks].
    rewrite dd_get_insert, decide_True by reflexivity.
    rewrite insert_insert_eq.
    replace (dd_get (outstanding st) p ∖ {[o]} ∖ {[o]})
      with (dd_get (outstanding st) p ∖ {[o]})
      by (apply set_eq; intros x; rewrite !elem_of_difference; tauto).
    auto.
  - rewrite (complete_offset_unassigned st p o Hp). cbn [snd].
    rewrite complete_offset_unassigned by exact Hp. auto.
Qed.

(** X2.  On an assigned partition, [add_offset] followed by
    [complete_offset] of the same offset both return; the offset is then
    admitted and not outstanding, and nothing else about any partition
    has changed. *)
Theorem add_then_complete (st : tracker) (p : Partition) (o : Z) :
  p ∈ partition_locks st →
  let st1 := snd (add_offset p o st) in
  let st2 := snd (complete_offset p o st1) in
  add_offset p o st = (Ok tt, st1)
  ∧ complete_offset p o st1 = (Ok tt, st2)
  ∧ dd_get (all_offsets st2) p = {[o]} ∪ dd_get (all_offsets st) p
  ∧ dd_get (outstanding st2) p = dd_get (outstanding st) p ∖ {[o]}
  ∧ (∀ q, q ≠ p → dd_get (all_offsets st2) q = dd_get (all_offsets st) q
                  ∧ dd_get (outstanding st2) q = dd_get (outstanding st) q)
  ∧ last_committed st2 = last_committed st
  ∧ partition_locks st2 = partition_locks st.
Proof.
  intros Hp st1 st2. unfold st2, st1.
  rewrite (add_offset_assigned st p o Hp). cbn [snd].
  rewrite complete_offset_assigned by exact Hp. cbn [snd].
  cbn [all_offsets outstanding last_committed partition_locks].
  split; [reflexivity|]. split; [reflexivity|].
  rewrite !dd_get_insert, !decide_True by reflexivity.
  split; [reflexivity|]. split.
  { apply set_eq. intros x.
    rewrite !elem_of_difference, elem_of_union, elem_of_singleton. tauto. }
  split; [|auto].
  intros q Hq. rewrite !dd_get_insert, !decide_False by congruence. auto.
Qed.

Lemma committable_at_frame (st st' : tracker) (q : Partition) :
  dd_get (all_offsets st') q = dd_get (all_offsets st) q →
  dd_get (outstanding st') q = dd_get (outstanding st) q →
  last_committed_of st' q = last_committed_of st q →
  committable_at st' q = committable_at st q.
Proof. unfold committable_at. intros -> -> ->. reflexivity. Qed.

(** X3.  Partitions are independent: [add_offset], [complete_offset]
    and [mark_committed] on one partition leave what is committable
    for every other partition as it was. *)
Theorem other_partitions_untouched (st : tracker) (p q : Partition) (o : Z) :
  q ≠ p →
  committable_at (snd (add_offset p o st)) q = committable_at st q
  ∧ committable_at (snd (complete_offset p o st)) q = committable_at st q
  ∧ committable_at (snd (mark_committed p o st)) q = committable_at st q.
Proof.
  intros Hq.
  destruct (decide (p ∈ partition_locks st)) as [Hp|Hp].
  - rewrite add_offset_assigned, complete_offset_assigned, mark_committed_assigned
      by exact Hp.
    cbn [snd]. repeat split; apply committable_at_frame;
      cbn [all_offsets outstanding]; rewrite ?dd_get_insert, ?decide_False by congruence;
      try reflexivity; unfold last_committed_of; cbn [last_committed];
      rewrite ?lookup_insert_ne by congruence; reflexivity.
  - rewrite add_offset_unassigned, complete_offset_unassigned, mark_committed_unassigned
      by exact Hp. auto.
Qed.

(** X4.  In any state reached from a fresh tracker,
    [get_committable_offsets] only reads: the sets, the checkpoints and
    the locks are afterwards what they were, and calling it again
    gives the same mapping. *)
Theorem get_committable_offsets_repeatable (ops : list tracker_op) :
  let st : tracker := run_ops ops OffsetTracker_init in
  ∃ m st1 st2,
    get_committable_offsets st = (Ok m, st1)
    ∧ same_view st st1
    ∧ get_committable_offsets st1 = (Ok m, st2).
Proof.
  intros st.
  assert (tracked_assigned st) as Hwf
    by apply tracked_assigned_run_ops, tracked_assigned_init.
  destruct (get_committable_offsets_returns st Hwf) as (m & st1 & Hrun & Hv & Hm).
  assert (tracked_assigned st1) as Hwf1
    by exact (tracked_assigned_get_committable st st1 _ Hrun Hwf).
  destruct (get_committable_offsets_returns st1 Hwf1) as (m' & st2 & Hrun' & _ & Hm').
  exists m, st1, st2. split; [exact Hrun|]. split; [exact Hv|].
  rewrite Hrun'. do 2 f_equal. apply map_eq. intros p.
  rewrite Hm, Hm'. symmetry. apply same_view_committable_at, Hv.
Qed.

(** X8.  Once [mark_committed(p, o)] has run on an assigned partition,
    no later [get_committable_offsets] reports a value at or below [o]
    for [p], whatever offsets are admitted and completed in between. *)
Theorem no_commit_at_or_below_mark (st : tracker) (p : Partition) (o v : Z)
    (ops : list tracker_op) :
  p ∈ partition_locks st →
  Forall is_ingress_op ops →
  committable_at (run_ops ops (snd (mark_committed p o st))) p = Some v →
  o < v.
Proof.
  intros Hp Hops Hv.
  assert (∀ st0 : tracker,
            last_committed (run_ops ops st0) = last_committed st0) as Hlc.
  { clear Hv. induction Hops as [|op ops Hop _ IH]; intros st0; [reflexivity|].
    change (run_ops (op :: ops) st0) with (run_ops ops (run_op op st0)).
    rewrite IH. destruct op as [q x|q x| | | |]; try contradiction; cbn [run_op].
    - destruct (decide (q ∈ partition_locks st0)) as [Hq|Hq].
      + rewrite add_offset_assigned by exact Hq. reflexivity.
      + rewrite add_offset_unassigned by exact Hq. reflexivity.
    - destruct (decide (q ∈ partition_locks st0)) as [Hq|Hq].
      + rewrite complete_offset_assigned by exact Hq. reflexivity.
      + rewrite complete_offset_unassigned by exact Hq. reflexivity. }
  destruct (committable_for_spec _ _ _ _ Hv) as (_ & _ & Hlt & _).
  unfold last_committed_of in Hlt. rewrite Hlc in Hlt.
  rewrite mark_committed_assigned in Hlt by exact Hp. cbn in Hlt.
  rewrite lookup_insert_eq in Hlt. exact Hlt.
Qed.

(** X9.  [update_assignments] starts from scratch whatever the tracker
    held: nothing is committable, no partition has a checkpoint, and
    [add_offset] is accepted for exactly the partitions given. *)
Theorem update_assignments_resets (st : tracker) (ps : gset Partition) :
  let st1 := snd (update_assignments ps st) in
  update_assignments ps st = (Ok tt, st1)
  ∧ get_committable_offsets st1 = (Ok ∅, st1)
  ∧ (∀ p, last_committed_of st1 p = -1)
  ∧ (∀ p o, p ∈ ps → fst (add_offset p o st1) = Ok tt)
  ∧ (∀ p o, p ∉ ps → add_offset p o st1 = (Raise UnassignedPartitionError, st1)).
Proof.
  intros st1.
  assert (update_assignments ps st = (Ok tt, mkTracker ∅ ∅ ∅ ps)) as E by reflexivity.
  unfold st1. rewrite E. cbn [snd].
  split; [reflexivity|]. split.
  - unfold get_committable_offsets, bind, get_state. cbn [all_offsets].
    rewrite map_to_list_empty. reflexivity.
  - split; [intros p; unfold last_committed_of; cbn; rewrite lookup_empty; reflexivity|].
    split; intros p o Hp.
    + rewrite add_offset_assigned by exact Hp. reflexivity.
    + rewrite add_offset_unassigned by exact Hp. reflexivity.
Qed.

(** ** How far the scan gets *)

Lemma scan_ge (A U : gset Z) (n : nat) (offset hc : Z) :
  hc < offset → hc <= scan A U offset n hc.
Proof.
  intros Hlt. destruct (scan_spec A U n offset hc) as [[-> _]|[Hr _]]; lia.
Qed.

Lemma scan_advances (A U : gset Z) (n : nat) (offset hc : Z) :
  offset ∈ A → offset ∉ U → n ≠ O → offset <= scan A U offset n hc.
Proof.
  intros HA HU Hn. destruct (scan_spec A U n offset hc) as [[_ [Hz|Hno]]|[Hr _]].
  - contradiction.
  - exfalso. apply Hno. auto.
  - lia.
Qed.

Lemma scan_mono (A U U' : gset Z) (n : nat) :
  U' ⊆ U →
  ∀ offset hc, hc < offset → scan A U offset n hc <= scan A U' offset n hc.
Proof.
  intros Hsub. induction n as [|n IH]; intros offset hc Hlt; cbn [scan]; [lia|].
  destruct (decide (offset ∈ A ∧ offset ∉ U)) as [[HA HU]|Hno].
  - rewrite decide_True by (split; [exact HA | intros HU'; apply HU, Hsub, HU']).
    apply IH. lia.
  - case_decide; [|lia].
    etransitivity; [|apply scan_ge; lia]. lia.
Qed.

Lemma scan_ext (A U A' U' : gset Z) (n : nat) :
  (∀ x, (x ∈ A ∧ x ∉ U) ↔ (x ∈ A' ∧ x ∉ U')) →
  ∀ offset hc, scan A U offset n hc = scan A' U' offset n hc.
Proof.
  intros Hext. induction n as [|n IH]; intros offset hc; cbn [scan]; [reflexivity|].
  destruct (decide (offset ∈ A ∧ offset ∉ U)) as [Hd|Hd].
  - rewrite decide_True by (apply Hext; exact Hd). apply IH.
  - rewrite decide_False by (intros Hd'; apply Hd, Hext, Hd'). reflexivity.
Qed.

(** Range values past every admitted offset add nothing. *)
Lemma scan_beyond (A U : gset Z) (k n : nat) :
  ∀ offset hc,
    (∀ x, offset + Z.of_nat n <= x → x ∉ A) →
    scan A U offset (n + k) hc = scan A U offset n hc.
Proof.
  induction n as [|n IH]; intros offset hc Hout.
  - cbn [scan Nat.add]. destruct k as [|k]; [reflexivity|]. cbn [scan].
    rewrite decide_False; [reflexivity|]. intros [HA _]. apply (Hout offset); [lia|exact HA].
  - cbn [scan Nat.add]. case_decide; [|reflexivity].
    apply IH. intros x Hx. apply Hout. lia.
Qed.

(** The loop body in terms of any smallest and largest admitted
    offset. *)
Lemma committable_for_char (A U : gset Z) (lc lo hi : Z) :
  lo ∈ A → (∀ y, y ∈ A → lo <= y) → hi ∈ A → (∀ y, y ∈ A → y <= hi) →
  committable_for A U lc =
    let start := Z.max (lc + 1) lo in
    let hc := scan A U start (Z.to_nat (hi + 1 - start)) lc in
    if decide (hc > lc) then Some hc else None.
Proof.
  intros Hlo Hlo_le Hhi Hhi_ge. unfold committable_for.
  destruct (elements A) as [|x l] eqn:E.
  - exfalso. apply elem_of_elements in Hlo. rewrite E in Hlo.
    exact (not_elem_of_nil _ Hlo).
  - destruct (foldr_min_spec x l) as [Hmin Hmin_le].
    destruct (foldr_max_spec x l) as [Hmax Hmax_ge].
    rewrite <- E in Hmin, Hmin_le, Hmax, Hmax_ge.
    assert (foldr Z.min x l = lo) as ->.
    { apply Z.le_antisymm.
      - apply Hmin_le, elem_of_elements, Hlo.
      - apply Hlo_le, elem_of_elements, Hmin. }
    assert (foldr Z.max x l = hi) as ->.
    { apply Z.le_antisymm.
      - apply Hhi_ge, elem_of_elements, Hmax.
      - apply Hmax_ge, elem_of_elements, Hhi. }
    reflexivity.
Qed.

Lemma nonempty_min_max (A : gset Z) :
  A ≠ ∅ →
  ∃ lo hi, lo ∈ A ∧ (∀ y, y ∈ A → lo <= y) ∧ hi ∈ A ∧ (∀ y, y ∈ A → y <= hi).
Proof.
  intros Hne. destruct (elements A) as [|x l] eqn:E.
  - exfalso. apply Hne. apply leibniz_equiv, elements_empty_inv. rewrite E. reflexivity.
  - destruct (foldr_min_spec x l) as [Hmin Hmin_le].
    destruct (foldr_max_spec x l) as [Hmax Hmax_ge].
    rewrite <- E in Hmin, Hmin_le, Hmax, Hmax_ge.
    exists (foldr Z.min x l), (foldr Z.max x l).
    repeat split.
    + apply elem_of_elements, Hmin.
    + intros y Hy. apply Hmin_le, elem_of_elements, Hy.
    + apply elem_of_elements, Hmax.
    + intros y Hy. apply Hmax_ge, elem_of_elements, Hy.
Qed.

(** The body reports a value exactly when the offset the scan starts
    at is admitted and completed. *)
Lemma committable_for_is_Some (A U : gset Z) (lc : Z) :
  is_Some (committable_for A U lc)
  ↔ ∃ lo, min_admitted A = Some lo
          ∧ Z.max (lc + 1) lo ∈ A ∧ Z.max (lc + 1) lo ∉ U.
Proof.
  split.
  - intros [v Hv]. destruct (committable_for_spec _ _ _ _ Hv) as (lo & Hlo & _ & Hle & Hrun & _).
    exists lo. split; [exact Hlo|]. apply Hrun. lia.
  - intros (lo & Hlo & HA & HU).
    destruct (min_admitted_spec _ _ Hlo) as [HloA Hlo_le].
    assert (A ≠ ∅) as Hne by (intros ->; exact (not_elem_of_empty _ HloA)).
    destruct (nonempty_min_max A Hne) as (lo' & hi & _ & _ & Hhi & Hhi_ge).
    rewrite (committable_for_char A U lc lo hi HloA Hlo_le Hhi Hhi_ge). cbv zeta.
    set (start := Z.max (lc + 1) lo) in *.
    assert (start <= hi) as Hsh by (apply Hhi_ge, HA).
    assert (start <= scan A U start (Z.to_nat (hi + 1 - start)) lc) as Hadv
      by (apply scan_advances; [exact HA | exact HU | lia]).
    rewrite decide_True by lia. eauto.
Qed.

(** X5.  In any state reached from a fresh tracker, a partition
    appears in the mapping of [get_committable_offsets] exactly when
    the offset [max(last_committed + 1, min(all_offsets))] is admitted
    and no longer outstanding. *)
Theorem committable_iff_start_completed (ops : list tracker_op) :
  let st : tracker := run_ops ops OffsetTracker_init in
  ∃ m st',
    get_committable_offsets st = (Ok m, st')
    ∧ ∀ p, is_Some (m !! p)
           ↔ ∃ lo, min_admitted (dd_get (all_offsets st) p) = Some lo
                   ∧ Z.max (last_committed_of st p + 1) lo ∈ dd_get (all_offsets st) p
                   ∧ Z.max (last_committed_of st p + 1) lo ∉ dd_get (outstanding st) p.
Proof.
  intros st.
  assert (tracked_assigned st) as Hwf
    by apply tracked_assigned_run_ops, tracked_assigned_init.
  destruct (get_committable_offsets_returns st Hwf) as (m & st' & Hrun & _ & Hm).
  exists m, st'. split; [exact Hrun|].
  intros p. rewrite Hm. apply committable_for_is_Some.
Qed.

Lemma committable_for_mono (A U U' : gset Z) (lc v : Z) :
  U' ⊆ U → committable_for A U lc = Some v →
  ∃ v', committable_for A U' lc = Some v' ∧ v <= v'.
Proof.
  intros Hsub. unfold committable_for.
  destruct (elements A) as [|x l]; [discriminate|]. cbv zeta.
  set (start := Z.max (lc + 1) (foldr Z.min x l)).
  set (n := Z.to_nat (foldr Z.max x l + 1 - start)).
  pose proof (scan_mono A U U' n Hsub start lc) as Hmono.
  case_decide as Hgt; [|discriminate]. intros [= <-].
  assert (lc < start) as Hls by (unfold start; lia).
  specialize (Hmono Hls).
  rewrite decide_True by lia. eauto.
Qed.

(** X6.  Completing an offset never takes back progress: a partition
    that had a committable value keeps one, and it is at least as
    high. *)
Theorem completion_only_advances (st : tracker) (p q : Partition) (o v : Z) :
  committable_at st p = Some v →
  ∃ v', committable_at (snd (complete_offset q o st)) p = Some v' ∧ v <= v'.
Proof.
  intros Hv. destruct (decide (q ∈ partition_locks st)) as [Hq|Hq].
  2:{ rewrite complete_offset_unassigned by exact Hq. exists v. split; [exact Hv | lia]. }
  rewrite complete_offset_assigned by exact Hq. cbn [snd].
  destruct (decide (q = p)) as [->|Hne].
  - unfold committable_at in *. cbn [all_offsets outstanding].
    rewrite dd_get_insert, decide_True by reflexivity.
    change (last_committed_of (mkTracker _ _ _ _) p) with (last_committed_of st p).
    apply (committable_for_mono _ (dd_get (outstanding st) p)); [|exact Hv].
    apply subseteq_difference_l. reflexivity.
  - exists v. split; [|lia]. rewrite <- Hv. apply committable_at_frame.
    + reflexivity.
    + cbn [outstanding]. rewrite dd_get_insert, decide_False by exact Hne. reflexivity.
    + reflexivity.
Qed.

Lemma committable_for_admit_above (A U : gset Z) (lc o : Z) :
  (∀ a, a ∈ A → a < o) →
  committable_for ({[o]} ∪ A) ({[o]} ∪ U) lc = committable_for A U lc.
Proof.
  intros Habove.
  assert (∀ x, (x ∈ A ∧ x ∉ U) ↔ (x ∈ {[o]} ∪ A ∧ x ∉ {[o]} ∪ U)) as Hext.
  { intros x. rewrite !elem_of_union, !elem_of_singleton. split.
    - intros [HA HU]. split; [auto|]. intros [->|HU']; [|auto].
      specialize (Habove _ HA). lia.
    - intros [[->|HA] HU]; [exfalso; apply HU; auto|]. split; [exact HA|].
      intros HU'. apply HU. auto. }
  destruct (decide (A = ∅)) as [->|Hne].
  - rewrite committable_for_empty.
    assert (o ∈ ({[o]} ∪ ∅ : gset Z)) as Ho by (apply elem_of_union; left; apply elem_of_singleton; reflexivity).
    assert (∀ y, y ∈ ({[o]} ∪ ∅ : gset Z) → y = o) as Honly.
    { intros y Hy. apply elem_of_union in Hy as [Hy|Hy].
      - apply elem_of_singleton in Hy. exact Hy.
      - exfalso. exact (not_elem_of_empty _ Hy). }
    rewrite (committable_for_char _ _ lc o o Ho); cycle 1.
    { intros y Hy. rewrite (Honly y Hy). lia. }
    { exact Ho. }
    { intros y Hy. rewrite (Honly y Hy). lia. }
    cbv zeta. rewrite <- (scan_ext ∅ U _ _ _ Hext).
    set (n := Z.to_nat _). set (start := Z.max _ _).
    destruct (scan_spec ∅ U n start lc) as [[-> _]|(Hr & Hrun & _)].
    + rewrite decide_False by lia. reflexivity.
    + exfalso. destruct (Hrun start) as [Hin _]; [lia|]. exact (not_elem_of_empty _ Hin).
  - destruct (nonempty_min_max A Hne) as (lo & hi & Hlo & Hlo_le & Hhi & Hhi_ge).
    rewrite (committable_for_char A U lc lo hi Hlo Hlo_le Hhi Hhi_ge).
    assert (o ∈ {[o]} ∪ A) as Ho by (apply elem_of_union; left; apply elem_of_singleton; reflexivity).
    rewrite (committable_for_char ({[o]} ∪ A) ({[o]} ∪ U) lc lo o); cycle 1.
    { apply elem_of_union. right. exact Hlo. }
    { intros y Hy. apply elem_of_union in Hy as [Hy|Hy].
      - apply elem_of_singleton in Hy. subst y. specialize (Habove _ Hlo). lia.
      - apply Hlo_le, Hy. }
    { exact Ho. }
    { intros y Hy. apply elem_of_union in Hy as [Hy|Hy].
      - apply elem_of_singleton in Hy. lia.
      - specialize (Habove _ Hy). lia. }
    cbv zeta. rewrite <- (scan_ext A U _ _ _ Hext).
    set (start := Z.max (lc + 1) lo).
    specialize (Habove _ Hhi).
    replace (Z.to_nat (o + 1 - start))
      with (Z.to_nat (hi + 1 - start) + Z.to_nat (o + 1 - start - Z.of_nat (Z.to_nat (hi + 1 - start))))%nat
      by lia.
    rewrite scan_beyond; [reflexivity|].
    intros x Hx HxA. specialize (Hhi_ge _ HxA). lia.
Qed.

(** X7.  Admitting an offset above every admitted offset of its
    partition, which is what an in-order source does, leaves what is
    committable for every partition as it was. *)
Theorem admitting_above_keeps_committable (st : tracker) (p q : Partition) (o : Z) :
  p ∈ partition_locks st →
  (∀ a, a ∈ dd_get (all_offsets st) p → a < o) →
  committable_at (snd (add_offset p o st)) q = committable_at st q.
Proof.
  intros Hp Habove. rewrite add_offset_assigned by exact Hp. cbn [snd].
  destruct (decide (p = q)) as [<-|Hne].
  - unfold committable_at. cbn [all_offsets outstanding].
    rewrite !dd_get_insert, !decide_True by reflexivity.
    change (last_committed_of (mkTracker _ _ _ _) p) with (last_committed_of st p).
    apply committable_for_admit_above, Habove.
  - apply committable_at_frame; cbn [all_offsets outstanding];
      rewrite ?dd_get_insert, ?decide_False by exact Hne; reflexivity.
Qed.

End TrackerMore.

(** * More on the pool *)

Section PoolMore.

Context {Partition : Type} `{Countable Partition}.
Context {T Payload : Type}.
Context (hash : string -> Z).

Local Abbreviation pool_state := (@FixedQueuePool Partition _ _ T Payload) (only parsing).
Local Abbreviation work_item := (@WorkItem Partition T Payload) (only parsing).
Local Abbreviation lane := (@Queue Partition T Payload) (only parsing).

(** ** Choosing a lane *)

Lemma lane_of_lt (pool : pool_state) (group_key : string) :
  pool_wf pool → (lane_of hash pool group_key < length (queues pool))%nat.
Proof.
  intros [Hpos Hlen]. unfold lane_of. rewrite Hlen.
  pose proof (Z.mod_pos_bound (hash group_key) (num_queues pool) Hpos). lia.
Qed.

Lemma py_index_lane (pool : pool_state) (group_key : string) :
  pool_wf pool →
  py_index (length (queues pool)) (hash group_key `mod` num_queues pool)
  = Some (lane_of hash pool group_key).
Proof.
  intros [Hpos Hlen]. unfold py_index, lane_of. rewrite Hlen.
  pose proof (Z.mod_pos_bound (hash group_key) (num_queues pool) Hpos).
  rewrite decide_True by lia. reflexivity.
Qed.

(** X10.  In a pool with a positive number of lanes and one queue for
    each, [get_queue_for_group] returns for every key an index from 0
    to [num_queues - 1], the queue of that index exists, and the pool
    is not changed. *)
Theorem lane_index_in_range (pool : pool_state) (group_key : string) :
  pool_wf pool →
  ∃ i q,
    get_queue_for_group hash group_key pool = (Ok i, pool)
    ∧ 0 <= i < num_queues pool
    ∧ py_index (length (queues pool)) i = Some (Z.to_nat i)
    ∧ queues pool !! Z.to_nat i = Some q.
Proof.
  intros Hwf. pose proof (lane_of_lt pool group_key Hwf) as Hlt.
  destruct (lookup_lt_is_Some_2 _ _ Hlt) as [q Hq].
  pose proof (py_index_lane pool group_key Hwf) as Hidx.
  destruct Hwf as [Hpos Hlen].
  exists (hash group_key `mod` num_queues pool), q.
  unfold get_queue_for_group, bind, get_state, ret.
  rewrite decide_False by lia.
  split; [reflexivity|].
  split; [apply Z.mod_pos_bound; exact Hpos|].
  split; [exact Hidx | exact Hq].
Qed.

(** ** Submitting on an assigned partition *)

(** The pool once [add_offset] has run for the item. *)
Lemma submit_assigned_unfold (pool : pool_state) (group_key : string) (it : work_item) :
  partition it ∈ partition_locks (offset_tracker pool) →
  FixedQueuePool_submit hash group_key it pool =
    let pool1 := with_tracker pool
                   (snd (add_offset (partition it) (offset it) (offset_tracker pool))) in
    if decide (num_queues pool = 0) then (Raise ZeroDivisionError, pool1)
    else match py_index (length (queues pool)) (hash group_key `mod` num_queues pool) with
         | Some i => on_queue i (queue_put it) pool1
         | None => (Raise IndexError, pool1)
         end.
Proof.
  intros Hp. unfold FixedQueuePool_submit, bind, try_except, on_tracker.
  rewrite add_offset_assigned by exact Hp.
  unfold get_queue_for_group, bind, get_state, raise, ret. cbn.
  case_decide; [reflexivity|].
  destruct (py_index _ _); reflexivity.
Qed.

(** X11.  [submit] for an assigned partition always admits the offset.
    Then either the item is appended to the end of one open queue and
    [submit] returns, or [submit] raises [ZeroDivisionError],
    [IndexError] or [queue.ShutDown] and the offset stays outstanding
    with no item queued. *)
Theorem submit_assigned_cases (pool : pool_state) (group_key : string) (it : work_item) :
  partition it ∈ partition_locks (offset_tracker pool) →
  let pool1 := with_tracker pool
                 (snd (add_offset (partition it) (offset it) (offset_tracker pool))) in
  (∃ i q, queues pool !! i = Some q ∧ is_shutdown q = false
          ∧ FixedQueuePool_submit hash group_key it pool
            = (Ok tt, with_queues pool1 (<[i := mkQueue (items q ++ [it]) false]> (queues pool))))
  ∨ (∃ e, (e = ZeroDivisionError ∨ e = IndexError ∨ e = QueueShutDown)
          ∧ FixedQueuePool_submit hash group_key it pool = (Raise e, pool1)).
Proof.
  intros Hp pool1. rewrite submit_assigned_unfold by exact Hp. cbv zeta. fold pool1.
  case_decide; [right; eauto|].
  destruct (py_index _ _) as [i|]; [|right; eauto 6].
  unfold on_queue. cbn [queues pool1 with_tracker].
  destruct (queues pool !! i) as [q|] eqn:Hq; [|right; eauto 6].
  unfold queue_put. destruct (is_shutdown q) eqn:Hsh.
  - right. exists QueueShutDown. split; [auto|].
    rewrite (list_insert_id _ _ _ Hq).
    change (queues pool) with (queues pool1). rewrite with_queues_id. reflexivity.
  - left. exists i, q. auto.
Qed.

Lemma sum_depths_insert (qs : list lane) :
  ∀ (i : nat) (q q' : lane),
    qs !! i = Some q →
    foldr Z.add 0 (map qsize (<[i := q']> qs))
    = foldr Z.add 0 (map qsize qs) - qsize q + qsize q'.
Proof.
  induction qs as [|x qs IH]; intros i q q' Hq; [discriminate|].
  destruct i as [|i].
  - injection Hq as ->. cbn [list_insert insert map foldr]. lia.
  - change (<[S i := q']> (x :: qs)) with (x :: <[i := q']> qs).
    cbn [map foldr]. rewrite (IH i q q' Hq). lia.
Qed.

Lemma total_items_insert (pool : pool_state) (i : nat) (q q' : lane) :
  queues pool !! i = Some q →
  total_items (with_queues pool (<[i := q']> (queues pool)))
  = total_items pool - qsize q + qsize q'.
Proof.
  intros Hq. unfold total_items, queue_depths. cbn [queues with_queues].
  apply sum_depths_insert, Hq.
Qed.

(** What an accepted submission does. *)
Lemma submit_accepted_spec (pool : pool_state) (group_key : string) (it : work_item) (q : lane) :
  pool_wf pool →
  partition it ∈ partition_locks (offset_tracker pool) →
  queues pool !! lane_of hash pool group_key = Some q →
  is_shutdown q = false →
  FixedQueuePool_submit hash group_key it pool =
    (Ok tt,
     with_queues
       (with_tracker pool
          (snd (add_offset (partition it) (offset it) (offset_tracker pool))))
       (<[lane_of hash pool group_key := mkQueue (items q ++ [it]) false]> (queues pool))).
Proof.
  intros Hwf Hp Hq Hsh. rewrite submit_assigned_unfold by exact Hp. cbv zeta.
  rewrite (py_index_lane pool group_key Hwf).
  destruct Hwf as [Hpos _]. rewrite decide_False by lia.
  unfold on_queue. cbn [queues with_tracker]. rewrite Hq.
  unfold queue_put. rewrite Hsh. reflexivity.
Qed.

(** X12.  In a pool as [__init__] builds it, [submit] for an assigned
    partition whose lane is open returns, appends the item to the end
    of the queue [hash(group_key) % num_queues] and to no other, makes
    the offset admitted and outstanding, and raises the total depth by
    one. *)
Theorem submit_enqueues_on_its_lane (pool : pool_state) (group_key : string)
    (it : work_item) (q : lane) :
  pool_wf pool →
  partition it ∈ partition_locks (offset_tracker pool) →
  queues pool !! lane_of hash pool group_key = Some q →
  is_shutdown q = false →
  ∃ pool',
    FixedQueuePool_submit hash group_key it pool = (Ok tt, pool')
    ∧ queues pool' !! lane_of hash pool group_key = Some (mkQueue (items q ++ [it]) false)
    ∧ (∀ j, j ≠ lane_of hash pool group_key → queues pool' !! j = queues pool !! j)
    ∧ offset it ∈ dd_get (all_offsets (offset_tracker pool')) (partition it)
    ∧ offset it ∈ dd_get (outstanding (offset_tracker pool')) (partition it)
    ∧ total_items pool' = total_items pool + 1.
Proof.
  intros Hwf Hp Hq Hsh. eexists. split; [apply submit_accepted_spec; eassumption|].
  pose proof (lane_of_lt pool group_key Hwf) as Hlt.
  cbn [queues with_queues offset_tracker with_tracker].
  split; [apply list_lookup_insert_eq; exact Hlt|].
  split; [intros j Hj; apply list_lookup_insert_ne; congruence|].
  rewrite add_offset_assigned by exact Hp. cbn [snd all_offsets outstanding].
  rewrite !dd_get_insert, !decide_True by reflexivity.
  split; [apply elem_of_union; left; apply elem_of_singleton; reflexivity|].
  split; [apply elem_of_union; left; apply elem_of_singleton; reflexivity|].
  change (queues pool) with (queues (with_tracker pool
    (mkTracker (<[partition it := {[offset it]} ∪ dd_get (all_offsets (offset_tracker pool)) (partition it)]> (all_offsets (offset_tracker pool)))
               (<[partition it := {[offset it]} ∪ dd_get (outstanding (offset_tracker pool)) (partition it)]> (outstanding (offset_tracker pool)))
               (last_committed (offset_tracker pool)) (partition_locks (offset_tracker pool))))) at 1.
  rewrite (total_items_insert _ _ q) by exact Hq.
  unfold qsize. cbn [items]. rewrite length_app. cbn [length].
  unfold total_items, queue_depths. cbn [queues with_tracker]. lia.
Qed.

(** X15.  When the lane of the key has been shut down, [submit] for an
    assigned partition raises [queue.ShutDown] after [add_offset] has
    run: no queue changes and the offset is left admitted and
    outstanding. *)
Theorem submit_to_closed_lane (pool : pool_state) (group_key : string)
    (it : work_item) (q : lane) :
  pool_wf pool →
  partition it ∈ partition_locks (offset_tracker pool) →
  queues pool !! lane_of hash pool group_key = Some q →
  is_shutdown q = true →
  ∃ pool',
    FixedQueuePool_submit hash group_key it pool = (Raise QueueShutDown, pool')
    ∧ queues pool' = queues pool
    ∧ offset it ∈ dd_get (all_offsets (offset_tracker pool')) (partition it)
    ∧ offset it ∈ dd_get (outstanding (offset_tracker pool')) (partition it).
Proof.
  intros Hwf Hp Hq Hsh. rewrite submit_assigned_unfold by exact Hp. cbv zeta.
  rewrite (py_index_lane pool group_key Hwf).
  destruct Hwf as [Hpos _]. rewrite decide_False by lia.
  unfold on_queue. cbn [queues with_tracker]. rewrite Hq.
  unfold queue_put. rewrite Hsh.
  eexists. split; [reflexivity|].
  cbn [queues with_queues offset_tracker with_tracker].
  split; [apply list_insert_id, Hq|].
  rewrite add_offset_assigned by exact Hp. cbn [snd all_offsets outstanding].
  rewrite !dd_get_insert, !decide_True by reflexivity.
  split; apply elem_of_union; left; apply elem_of_singleton; reflexivity.
Qed.

(** X16.  A pool built with no lanes ([num_queues = 0]) fails every
    [submit] for an assigned partition with [ZeroDivisionError], and
    the offset [add_offset] recorded before stays outstanding. *)
Theorem submit_without_lanes (pool : pool_state) (group_key : string) (it : work_item) :
  num_queues pool = 0 →
  partition it ∈ partition_locks (offset_tracker pool) →
  ∃ pool',
    FixedQueuePool_submit hash group_key it pool = (Raise ZeroDivisionError, pool')
    ∧ queues pool' = queues pool
    ∧ offset it ∈ dd_get (outstanding (offset_tracker pool')) (partition it).
Proof.
  intros Hz Hp. rewrite submit_assigned_unfold by exact Hp. cbv zeta.
  rewrite decide_True by exact Hz.
  eexists. split; [reflexivity|]. split; [reflexivity|].
  cbn [offset_tracker with_tracker].
  rewrite add_offset_assigned by exact Hp. cbn [snd outstanding].
  rewrite dd_get_insert, decide_True by reflexivity.
  apply elem_of_union; left; apply elem_of_singleton; reflexivity.
Qed.

(** ** A batch of submissions *)

Lemma accepted_for_cons (pool : pool_state) (i : nat) (group_key : string)
    (it : work_item) (subs : list (string * work_item)) :
  accepted_for hash pool i ((group_key, it) :: subs) =
    if decide (partition it ∈ partition_locks (offset_tracker pool)
               ∧ lane_of hash pool group_key = i)
    then it :: accepted_for hash pool i subs
    else accepted_for hash pool i subs.
Proof.
  unfold accepted_for. rewrite filter_cons. cbn [fst snd].
  case_decide; reflexivity.
Qed.

Lemma accepted_for_ext (pool pool' : pool_state) (i : nat) (subs : list (string * work_item)) :
  num_queues pool' = num_queues pool →
  partition_locks (offset_tracker pool') = partition_locks (offset_tracker pool) →
  accepted_for hash pool' i subs = accepted_for hash pool i subs.
Proof.
  intros Hn Hl. induction subs as [|[gk it] subs IH]; [reflexivity|].
  rewrite !accepted_for_cons, IH. unfold lane_of. rewrite Hn, Hl. reflexivity.
Qed.

Lemma queue_eta (q : lane) : is_shutdown q = false → q = mkQueue (items q) false.
Proof. destruct q as [its sh]. cbn. intros ->. reflexivity. Qed.

(** After the submissions [subs], every lane holds what it held
    followed by the accepted items that hash to it, in submission
    order; nothing is logged and the pool keeps its shape. *)
Lemma submit_all_spec (subs : list (string * work_item)) :
  ∀ pool : pool_state,
    pool_wf pool → lanes_open pool →
    let pool' := run_pool_ops hash (submit_all subs) pool in
    pool_wf pool' ∧ lanes_open pool'
    ∧ log pool' = log pool
    ∧ result_processor pool' = result_processor pool
    ∧ identifier pool' = identifier pool
    ∧ ∀ i q, queues pool !! i = Some q →
             queues pool' !! i
             = Some (mkQueue (items q ++ accepted_for hash pool i subs) false).
Proof.
  induction subs as [|[gk it] subs IH]; intros pool Hwf Hopen.
  - cbn. repeat split; try assumption; try apply Hwf.
    intros i q Hq. rewrite app_nil_r, Hq. f_equal. apply queue_eta. eapply Hopen, Hq.
  - change (run_pool_ops hash (submit_all ((gk, it) :: subs)) pool)
      with (run_pool_ops hash (submit_all subs)
              (snd (FixedQueuePool_submit hash gk it pool))).
    destruct (decide (partition it ∈ partition_locks (offset_tracker pool))) as [Hp|Hp].
    + pose proof (lane_of_lt pool gk Hwf) as Hlt.
      destruct (lookup_lt_is_Some_2 _ _ Hlt) as [ql Hql].
      pose proof (Hopen _ _ Hql) as Hsh.
      rewrite (submit_accepted_spec pool gk it ql Hwf Hp Hql Hsh). cbn [snd].
      set (pool1 := with_queues _ _).
      assert (num_queues pool1 = num_queues pool) as Hn by reflexivity.
      assert (partition_locks (offset_tracker pool1) = partition_locks (offset_tracker pool))
        as Hl.
      { unfold pool1. cbn [offset_tracker with_queues with_tracker].
        rewrite add_offset_assigned by exact Hp. reflexivity. }
      assert (pool_wf pool1) as Hwf1.
      { destruct Hwf as [Hpos Hlen]. split; [exact Hpos|].
        unfold pool1. cbn [queues with_queues num_queues with_tracker].
        rewrite length_insert. exact Hlen. }
      assert (lanes_open pool1) as Hopen1.
      { intros i q. unfold pool1. cbn [queues with_queues].
        destruct (decide (i = lane_of hash pool gk)) as [->|Hne].
        - rewrite list_lookup_insert_eq by exact Hlt. intros [= <-]. reflexivity.
        - rewrite list_lookup_insert_ne by congruence. apply Hopen. }
      destruct (IH pool1 Hwf1 Hopen1) as (Hwf' & Hopen' & Hlog & Hrp & Hid & Hqs).
      split; [exact Hwf'|]. split; [exact Hopen'|].
      split; [exact Hlog|]. split; [exact Hrp|]. split; [exact Hid|].
      intros i q Hq. rewrite accepted_for_cons.
      destruct (decide (i = lane_of hash pool gk)) as [->|Hne].
      * rewrite decide_True by auto.
        rewrite Hql in Hq. injection Hq as <-.
        rewrite (Hqs _ (mkQueue (items ql ++ [it]) false))
          by (unfold pool1; cbn [queues with_queues]; apply list_lookup_insert_eq; exact Hlt).
        cbn [items]. rewrite <- app_assoc, (accepted_for_ext pool pool1) by assumption.
        reflexivity.
      * rewrite decide_False by (intros [_ Heq]; congruence).
        rewrite (Hqs _ q)
          by (unfold pool1; cbn [queues with_queues];
              rewrite list_lookup_insert_ne by congruence; exact Hq).
        rewrite (accepted_for_ext pool pool1) by assumption. reflexivity.
    + rewrite (submit_unassigned hash pool gk it Hp). cbn [snd].
      destruct (IH pool Hwf Hopen) as (Hwf' & Hopen' & Hlog & Hrp & Hid & Hqs).
      split; [exact Hwf'|]. split; [exact Hopen'|].
      split; [exact Hlog|]. split; [exact Hrp|]. split; [exact Hid|].
      intros i q Hq. rewrite accepted_for_cons.
      rewrite decide_False by (intros [Hin _]; exact (Hp Hin)).
      apply Hqs, Hq.
Qed.

(** X13.  After any batch of submissions to a pool with all lanes
    open, each lane's queue holds what it held before followed by
    exactly the items of the batch whose partition is assigned and
    whose key hashes to that lane, in the order they were submitted. *)
Theorem lanes_keep_submission_order (subs : list (string * work_item))
    (pool : pool_state) (i : nat) (q : lane) :
  pool_wf pool → lanes_open pool →
  queues pool !! i = Some q →
  queues (run_pool_ops hash (submit_all subs) pool) !! i
  = Some (mkQueue (items q ++ accepted_for hash pool i subs) false).
Proof.
  intros Hwf Hopen Hq.
  destruct (submit_all_spec subs pool Hwf Hopen) as (_ & _ & _ & _ & _ & Hqs).
  apply Hqs, Hq.
Qed.

(** X14.  The worker of a lane that runs after a batch of submissions
    calls the processing callback once for every item the lane holds,
    in submission order, and completes each before the next, ending on
    the empty queue, when the callback raises nothing outside
    [Exception]. *)
Theorem worker_processes_in_submission_order (subs : list (string * work_item))
    (pool : pool_state) (i fuel : nat) (q : lane) :
  pool_wf pool → lanes_open pool →
  queues pool !! i = Some q →
  let its := items q ++ accepted_for hash pool i subs in
  raises_only_Exception pool its →
  (length its < fuel)%nat →
  ∃ pool',
    worker_run fuel i false (run_pool_ops hash (submit_all subs) pool)
    = (Ok (Some Blocked), pool')
    ∧ log pool' = log pool ++ worker_events i its
    ∧ queues pool' !! i = Some (mkQueue [] false).
Proof.
  intros Hwf Hopen Hq its Hexc Hfuel.
  destruct (submit_all_spec subs pool Hwf Hopen) as (_ & _ & Hlog & Hrp & Hid & Hqs).
  specialize (Hqs i q Hq). fold its in Hqs.
  set (pool1 := run_pool_ops hash (submit_all subs) pool) in *.
  destruct (worker_run_spec i its fuel pool1 _ Hqs eq_refl)
    as (k & r & pool' & Hrun & Hlog' & _ & Hqs' & Hall).
  destruct Hall as [-> ->].
  { intros it e Hin. rewrite Hrp, Hid. apply Hexc, Hin. }
  { exact Hfuel. }
  exists pool'. split; [exact Hrun|].
  rewrite firstn_all in Hlog'. rewrite Hlog', Hlog. split; [reflexivity|].
  rewrite Hqs', drop_all. apply list_lookup_insert_eq.
  eapply lookup_lt_Some, Hqs.
Qed.

(** ** What a worker leaves in the tracker *)

Lemma complete_all_cons (it : work_item) (its : list work_item) (t : OffsetTracker) :
  complete_all (it :: its) t
  = complete_all its (snd (complete_offset (partition it) (offset it) t)).
Proof. reflexivity. Qed.

Lemma complete_offset_outstanding (t : OffsetTracker) (p q : Partition) (o : Z) :
  dd_get (outstanding (snd (complete_offset p o t))) q
  = if decide (p ∈ partition_locks t ∧ p = q)
    then dd_get (outstanding t) q ∖ {[o]}
    else dd_get (outstanding t) q.
Proof.
  destruct (decide (p ∈ partition_locks t)) as [Hp|Hp].
  - rewrite complete_offset_assigned by exact Hp. cbn [snd outstanding].
    rewrite dd_get_insert. destruct (decide (p = q)) as [->|Hne].
    + rewrite decide_True by auto. reflexivity.
    + rewrite decide_False by (intros [_ ?]; contradiction). reflexivity.
  - rewrite complete_offset_unassigned by exact Hp. cbn [snd].
    rewrite decide_False by (intros [? _]; contradiction). reflexivity.
Qed.

Lemma complete_all_outstanding_subseteq (its : list work_item) :
  ∀ (t : OffsetTracker) (q : Partition),
    dd_get (outstanding (complete_all its t)) q ⊆ dd_get (outstanding t) q.
Proof.
  induction its as [|it its IH]; intros t q; [reflexivity|].
  rewrite complete_all_cons. etransitivity; [apply IH|].
  rewrite complete_offset_outstanding. case_decide; [|reflexivity].
  apply subseteq_difference_l. reflexivity.
Qed.

Lemma complete_all_not_outstanding (its : list work_item) :
  ∀ (t : OffsetTracker) (it : work_item),
    it ∈ its → partition it ∈ partition_locks t →
    offset it ∉ dd_get (outstanding (complete_all its t)) (partition it).
Proof.
  induction its as [|x its IH]; intros t it Hin Hp.
  - exfalso. exact (not_elem_of_nil _ Hin).
  - rewrite complete_all_cons. apply elem_of_cons in Hin as [->|Hin].
    + intros Hout. apply complete_all_outstanding_subseteq in Hout.
      rewrite complete_offset_outstanding, decide_True in Hout by auto.
      apply elem_of_difference in Hout as [_ Hne]. apply Hne, elem_of_singleton. reflexivity.
    + apply IH; [exact Hin|].
      destruct (complete_offset_returns t (partition x) (offset x)) as (_ & _ & ->).
      exact Hp.
Qed.

(** X17.  When a worker has gone through its queue, no offset of any
    of those items on an assigned partition is outstanding any more,
    whether the callback succeeded on it or raised an [Exception]. *)
Theorem worker_leaves_nothing_outstanding (fuel w : nat) (pool : pool_state) (q : lane)
    (it : work_item) :
  queues pool !! w = Some q →
  raises_only_Exception pool (items q) →
  (length (items q) < fuel)%nat →
  it ∈ items q →
  partition it ∈ partition_locks (offset_tracker pool) →
  offset it ∉ dd_get (outstanding (offset_tracker (snd (worker_run fuel w false pool))))
                     (partition it).
Proof.
  intros Hq Hexc Hfuel Hin Hp.
  destruct (worker_run_spec w (items q) fuel pool q Hq eq_refl)
    as (k & r & pool' & Hrun & _ & Htr & _ & Hall).
  destruct (Hall Hexc Hfuel) as [-> _].
  rewrite Hrun. cbn [snd]. rewrite Htr, firstn_all.
  apply complete_all_not_outstanding; assumption.
Qed.

(** ** A turn of the commit loop *)

(** X18.  When the commit function raises an [Exception], the turn
    still returns; no [mark_committed] is made, the tracker shows the
    same sets and checkpoints as before, and the same mapping is on
    offer at the next turn. *)
Theorem commit_failure_keeps_checkpoints (pool : pool_state)
    (f : gmap Partition Z -> outcome unit) (m : gmap Partition Z)
    (t' : OffsetTracker) (e : exn) :
  commit_function pool = Some f →
  get_committable_offsets (offset_tracker pool) = (Ok m, t') →
  m ≠ ∅ →
  f m = Raise e → is_Exception e = true →
  ∃ pool',
    commit_iteration pool = (Ok tt, pool')
    ∧ log pool' = log pool ++ [EvCommitted m]
    ∧ same_view (offset_tracker pool) (offset_tracker pool')
    ∧ ∀ p, committable_at (offset_tracker pool') p = m !! p.
Proof.
  intros Hf Hgco Hne Hfm Hexc.
  destruct (get_committable_offsets_spec _ _ _ Hgco) as [Hv Hm].
  exists (with_log (with_tracker pool t') (log pool ++ [EvCommitted m])).
  split.
  - unfold commit_iteration, try_except. unfold bind at 1, on_tracker. rewrite Hgco.
    unfold bind at 1, get_state. cbn [commit_function with_tracker]. rewrite Hf.
    rewrite decide_False by exact Hne.
    unfold bind, emit, call. rewrite Hfm, Hexc. reflexivity.
  - cbn [log offset_tracker with_log with_tracker].
    split; [reflexivity|]. split; [exact Hv|].
    intros p. rewrite Hm. symmetry. apply same_view_committable_at, Hv.
Qed.

Lemma mark_all_ok (l : list (Partition * Z)) :
  ∀ pool : pool_state,
    NoDup l.*1 →
    (∀ p o, (p, o) ∈ l → p ∈ partition_locks (offset_tracker pool)) →
    ∃ pool',
      mark_all l pool = (Ok tt, pool')
      ∧ (∀ p, last_committed_of (offset_tracker pool') p
              = default (last_committed_of (offset_tracker pool) p)
                        ((list_to_map l : gmap Partition Z) !! p))
      ∧ (∀ p, dd_get (all_offsets (offset_tracker pool')) p
              = match (list_to_map l : gmap Partition Z) !! p with
                | Some v => filter (fun x => x > v)
                                   (dd_get (all_offsets (offset_tracker pool)) p)
                | None => dd_get (all_offsets (offset_tracker pool)) p
                end)
      ∧ outstanding (offset_tracker pool') = outstanding (offset_tracker pool)
      ∧ queues pool' = queues pool.
Proof.
  induction l as [|[q o] l IH]; intros pool Hnd Hlocks.
  - exists pool. cbn. split; [reflexivity|].
    split; [intros p; rewrite lookup_empty; reflexivity|].
    split; [intros p; rewrite lookup_empty; reflexivity|]. auto.
  - cbn in Hnd. apply NoDup_cons in Hnd as [Hnin Hnd].
    assert (q ∈ partition_locks (offset_tracker pool)) as Hq by (apply (Hlocks q o); left).
    rewrite mark_all_cons. cbv zeta. rewrite mark_committed_assigned by exact Hq.
    set (pool1 := with_tracker _ _).
    destruct (IH pool1 Hnd) as (pool' & Hrun & Hlc & Hall & Hout & Hqs).
    { intros p x Hin. unfold pool1. cbn [offset_tracker with_tracker partition_locks].
      apply (Hlocks p x). right. exact Hin. }
    exists pool'. split; [exact Hrun|].
    assert ((list_to_map l : gmap Partition Z) !! q = None) as Hnone
      by (apply not_elem_of_list_to_map_1; exact Hnin).
    split; [|split; [|split]].
    + intros p. rewrite Hlc. cbn [list_to_map foldr]. 
      change (list_to_map ((q, o) :: l) : gmap Partition Z)
        with (<[q := o]> (list_to_map l : gmap Partition Z)).
      unfold pool1. cbn [offset_tracker with_tracker].
      unfold last_committed_of at 1. cbn [last_committed].
      destruct (decide (q = p)) as [->|Hne].
      * rewrite Hnone, !lookup_insert_eq. reflexivity.
      * rewrite !lookup_insert_ne by exact Hne. reflexivity.
    + intros p. rewrite Hall.
      change (list_to_map ((q, o) :: l) : gmap Partition Z)
        with (<[q := o]> (list_to_map l : gmap Partition Z)).
      unfold pool1. cbn [offset_tracker with_tracker all_offsets].
      rewrite dd_get_insert.
      destruct (decide (q = p)) as [->|Hne].
      * rewrite Hnone, lookup_insert_eq. reflexivity.
      * rewrite lookup_insert_ne by exact Hne. reflexivity.
    + rewrite Hout. reflexivity.
    + rewrite Hqs. reflexivity.
Qed.

(** X19.  When the commit function returns, the turn hands it the
    committable mapping and then records exactly that mapping: each
    partition in it gets its value as [last_committed] and loses the
    admitted offsets at or below it, every other partition keeps its
    checkpoint, and [outstanding] is as before. *)
Theorem commit_success_records_checkpoints (pool : pool_state)
    (f : gmap Partition Z -> outcome unit) (m : gmap Partition Z)
    (t' : OffsetTracker) :
  tracked_assigned (offset_tracker pool) →
  commit_function pool = Some f →
  get_committable_offsets (offset_tracker pool) = (Ok m, t') →
  m ≠ ∅ →
  f m = Ok tt →
  ∃ pool',
    commit_iteration pool = (Ok tt, pool')
    ∧ (∀ p, last_committed_of (offset_tracker pool') p
            = default (last_committed_of (offset_tracker pool) p) (m !! p))
    ∧ (∀ p v x, m !! p = Some v →
                x ∈ dd_get (all_offsets (offset_tracker pool')) p
                ↔ x ∈ dd_get (all_offsets (offset_tracker pool)) p ∧ v < x)
    ∧ (∀ p, m !! p = None →
            dd_get (all_offsets (offset_tracker pool')) p
            = dd_get (all_offsets (offset_tracker pool)) p)
    ∧ (∀ p, dd_get (outstanding (offset_tracker pool')) p
            = dd_get (outstanding (offset_tracker pool)) p)
    ∧ queues pool' = queues pool.
Proof.
  intros Hwf Hf Hgco Hne Hfm.
  destruct (get_committable_offsets_spec _ _ _ Hgco) as [Hv Hm].
  destruct Hv as (Ha & Ho & Hlc & Hk).
  set (pool1 := with_log (with_tracker pool t') (log pool ++ [EvCommitted m])).
  destruct (mark_all_ok (map_to_list m) pool1 (NoDup_fst_map_to_list m))
    as (pool' & Hrun & Hlc' & Hall' & Hout' & Hqs').
  { intros p o Hin. apply elem_of_map_to_list in Hin. rewrite Hm in Hin.
    unfold pool1. cbn [offset_tracker with_log with_tracker]. rewrite <- Hk.
    apply Hwf.
    destruct (committable_for_spec _ _ _ _ Hin) as (lo & Hlo & _).
    destruct (min_admitted_spec _ _ Hlo) as [HloA _].
    unfold dd_get in HloA. destruct (all_offsets (offset_tracker pool) !! p); [eauto|].
    exfalso. exact (not_elem_of_empty _ HloA). }
  rewrite list_to_map_to_list in Hlc', Hall'.
  exists pool'. split.
  - unfold commit_iteration, try_except. unfold bind at 1, on_tracker. rewrite Hgco.
    unfold bind at 1, get_state. cbn [commit_function with_tracker]. rewrite Hf.
    rewrite decide_False by exact Hne.
    unfold bind at 1, emit. unfold bind at 1, call. rewrite Hfm.
    change (with_log (with_tracker pool t') (log (with_tracker pool t') ++ [EvCommitted m]))
      with pool1.
    rewrite Hrun. reflexivity.
  - split; [|split; [|split; [|split]]].
    + intros p. rewrite Hlc'. unfold pool1. cbn [offset_tracker with_log with_tracker].
      unfold last_committed_of. rewrite Hlc. reflexivity.
    + intros p v x Hp. rewrite Hall', Hp. unfold pool1.
      cbn [offset_tracker with_log with_tracker]. rewrite <- Ha.
      rewrite elem_of_filter. split; intros [? ?]; split; auto; lia.
    + intros p Hp. rewrite Hall', Hp. unfold pool1.
      cbn [offset_tracker with_log with_tracker]. symmetry. apply Ha.
    + intros p. rewrite Hout'. unfold pool1.
      cbn [offset_tracker with_log with_tracker]. symmetry. apply Ho.
    + rewrite Hqs'. reflexivity.
Qed.

(** ** Waiting, flushing and reassigning *)

(** X20.  On a pool whose queues are all empty, [wait_until_empty]
    reads the clock twice and returns [True] exactly when the time
    between the two readings is below the timeout; with a timeout of 0
    and a clock that does not run backwards it returns [False] on an
    empty pool. *)
Theorem wait_until_empty_on_empty_pool (fuel : nat) (clock : nat -> Z) (timeout : Z)
    (pool : pool_state) :
  total_items pool = 0 → fuel ≠ O →
  wait_until_empty fuel clock timeout pool
  = (Ok (Some (bool_decide (clock 1%nat - clock O < timeout))), pool).
Proof.
  intros Hz Hfuel. destruct fuel as [|fuel]; [contradiction|].
  unfold wait_until_empty. cbn [wait_loop]. case_decide as Ht.
  - unfold bind, get_state. rewrite decide_True by exact Hz.
    rewrite bool_decide_eq_true_2 by exact Ht. reflexivity.
  - rewrite bool_decide_eq_false_2 by exact Ht. reflexivity.
Qed.

Lemma total_items_emptied (qs : list lane) :
  foldr Z.add 0 (map qsize (map emptied qs)) = 0.
Proof. induction qs as [|q qs IH]; [reflexivity|]. cbn. exact IH. Qed.

(** X21.  Once [flush] has returned, every [submit] is dropped without
    a trace until the next [update_assignments]; that call then
    installs the new commit function and a tracker holding nothing but
    the locks of the given partitions, and after a flush that reported
    [False] it finds every queue empty. *)
Theorem flush_then_reassign (fuel : nat) (clock : nat -> Z) (timeout : option Z)
    (pool pool1 : pool_state) (success : bool)
    (ps : gset Partition) (f : gmap Partition Z -> outcome unit) :
  flush fuel clock timeout pool = (Ok (Some success), pool1) →
  (∀ group_key it, FixedQueuePool_submit hash group_key it pool1 = (Ok tt, pool1))
  ∧ let pool2 := snd (FixedQueuePool_update_assignments ps f pool1) in
    offset_tracker pool2 = mkTracker ∅ ∅ ∅ ps
    ∧ commit_function pool2 = Some f
    ∧ queues pool2 = queues pool1
    ∧ (success = false → total_items pool2 = 0).
Proof.
  intros Hrun.
  destruct (flush_spec fuel clock timeout pool) as (w & pool1' & Hrun' & Hw).
  rewrite Hrun in Hrun'. injection Hrun' as <- <-.
  destruct Hw as [Ht Hrest]. split.
  - intros gk it. apply submit_unassigned. rewrite Ht. apply not_elem_of_empty.
  - cbv zeta. unfold FixedQueuePool_update_assignments, bind, on_tracker.
    cbn. split; [reflexivity|]. split; [reflexivity|]. split; [reflexivity|].
    intros ->. destruct Hrest as [Hqs _].
    unfold total_items, queue_depths. cbn [queues with_commit_function with_tracker].
    rewrite Hqs. apply total_items_emptied.
Qed.

Lemma complete_all_on_fresh (its : list work_item) :
  ∀ t : OffsetTracker,
    (∀ p, dd_get (outstanding t) p = ∅) →
    all_offsets (complete_all its t) = all_offsets t
    ∧ (∀ p, dd_get (outstanding (complete_all its t)) p = ∅)
    ∧ last_committed (complete_all its t) = last_committed t
    ∧ partition_locks (complete_all its t) = partition_locks t.
Proof.
  induction its as [|it its IH]; intros t Hout; [auto|].
  rewrite complete_all_cons.
  set (t1 := snd (complete_offset (partition it) (offset it) t)).
  assert (∀ p, dd_get (outstanding t1) p = ∅) as Hout1.
  { intros p. unfold t1. rewrite complete_offset_outstanding, Hout.
    case_decide; [|reflexivity].
    apply set_eq. intros x. rewrite elem_of_difference. split; [tauto|].
    intros Hx. exfalso. exact (not_elem_of_empty _ Hx). }
  destruct (IH t1 Hout1) as (Ha & Ho & Hl & Hk).
  rewrite Ha, Hl, Hk. split; [|split; [exact Ho|]].
  - unfold t1. destruct (decide (partition it ∈ partition_locks t)) as [Hp|Hp].
    + rewrite complete_offset_assigned by exact Hp. reflexivity.
    + rewrite complete_offset_unassigned by exact Hp. reflexivity.
  - destruct (complete_offset_returns t (partition it) (offset it)) as (_ & Hl1 & Hk1).
    auto.
Qed.

(** X22.  Items that were queued before a reassignment are still run
    by their worker afterwards, and their completion leaves the new
    assignment's tracker as it was: nothing admitted, nothing
    outstanding, no checkpoint, and an empty committable mapping. *)
Theorem stale_items_leave_new_assignment_alone (pool : pool_state)
    (ps : gset Partition) (f : gmap Partition Z -> outcome unit)
    (fuel w : nat) (shutdown : bool) :
  let pool1 := snd (FixedQueuePool_update_assignments ps f pool) in
  let pool2 := snd (worker_run fuel w shutdown pool1) in
  same_view (offset_tracker pool1) (offset_tracker pool2)
  ∧ get_committable_offsets (offset_tracker pool2) = (Ok ∅, offset_tracker pool2).
Proof.
  intros pool1 pool2.
  assert (offset_tracker pool1 = mkTracker ∅ ∅ ∅ ps) as Ht1 by reflexivity.
  destruct (worker_run_effect fuel w shutdown pool1) as (its & _ & Htr).
  fold pool2 in Htr.
  destruct (complete_all_on_fresh its (offset_tracker pool1)) as (Ha & Ho & Hl & Hk).
  { intros p. rewrite Ht1. unfold dd_get. cbn. rewrite lookup_empty. reflexivity. }
  rewrite <- Htr in Ha, Ho, Hl, Hk. split.
  - repeat split.
    + intros p. rewrite Ha. reflexivity.
    + intros p. rewrite Ho, Ht1. unfold dd_get. cbn. rewrite lookup_empty. reflexivity.
    + symmetry. exact Hl.
    + symmetry. exact Hk.
  - unfold get_committable_offsets, bind, get_state. rewrite Ha, Ht1.
    cbn [all_offsets]. rewrite map_to_list_empty. reflexivity.
Qed.

End PoolMore.

(** * More on the processing strategy *)

Section StrategyMore.

Context {Partition : Type} `{Countable Partition}.
Context {T Payload : Type}.
Context (hash : string -> Z).

Local Abbreviation strategy := (@Strategy Partition _ _ T Payload) (only parsing).
Local Abbreviation raw_message := (@Message Partition Payload) (only parsing).
Local Abbreviation pool_state := (@FixedQueuePool Partition _ _ T Payload) (only parsing).

(** The strategy [self] over another pool. *)
Local Abbreviation over self pool :=
  (mkStrategy pool (decoder self) (grouping_fn self) (shutdown_event self)) (only parsing).

(** [add_offset] then [complete_offset] through the strategy, on an
    assigned partition. *)
Lemma add_complete_on_pool (self : strategy) (p : Partition) (o : Z) :
  p ∈ partition_locks (offset_tracker (queue_pool self)) →
  (on_pool (on_tracker (add_offset p o)) ;;
   on_pool (on_tracker (complete_offset p o)))%py self
  = (Ok tt,
     over self (with_tracker (queue_pool self)
       (snd (complete_offset p o
               (snd (add_offset p o (offset_tracker (queue_pool self)))))))).
Proof.
  intros Hp. unfold bind, on_pool, on_tracker.
  rewrite (add_offset_assigned _ p o Hp). cbn [snd queue_pool offset_tracker with_tracker].
  rewrite complete_offset_assigned by exact Hp. reflexivity.
Qed.

Lemma counted_not_outstanding (t : OffsetTracker) (p : Partition) (o : Z) :
  p ∈ partition_locks t →
  let t2 := snd (complete_offset p o (snd (add_offset p o t))) in
  (o ∈ dd_get (all_offsets t2) p) ∧ (o ∉ dd_get (outstanding t2) p)
  ∧ partition_locks t2 = partition_locks t.
Proof.
  intros Hp t2. unfold t2.
  rewrite (add_offset_assigned t p o Hp). cbn [snd].
  rewrite complete_offset_assigned by exact Hp.
  cbn [snd all_offsets outstanding partition_locks].
  rewrite !dd_get_insert, !decide_True by reflexivity.
  split; [apply elem_of_union; left; apply elem_of_singleton; reflexivity|].
  split; [|reflexivity].
  rewrite elem_of_difference, elem_of_singleton. tauto.
Qed.




(** X26.  On an assigned partition, with the strategy not shutting
    down and callbacks that raise nothing outside [Exception],
    [submit] always returns normally, and afterwards the offset of the
    message is admitted: whatever goes wrong on the way, the offset is
    tracked. *)
Theorem submit_on_assigned_returns (self : strategy) (msg : raw_message)
    (p : Partition) (o : Z) :
  shutdown_event self = false →
  value msg = BrokerValue p o →
  p ∈ partition_locks (offset_tracker (queue_pool self)) →
  (∀ e, decoder self (payload msg) = Raise e → is_Exception e = true) →
  (∀ res e, decoder self (payload msg) = Ok (Some res) →
            grouping_fn self res = Raise e → is_Exception e = true) →
  ∃ self',
    Strategy_submit hash msg self = (Ok tt, self')
    ∧ o ∈ dd_get (all_offsets (offset_tracker (queue_pool self'))) p.
Proof.
  intros Hsh Hval Hp Hdexc Hgexc.
  destruct (counted_not_outstanding _ p o Hp) as (Hin & _ & _).
  set (t1 := snd (add_offset p o (offset_tracker (queue_pool self)))) in *.
  assert (p ∈ partition_locks t1) as Hp1
    by (unfold t1; rewrite add_offset_assigned by exact Hp; exact Hp).
  assert (o ∈ dd_get (all_offsets t1) p) as Hin1.
  { unfold t1. rewrite add_offset_assigned by exact Hp. cbn [snd all_offsets].
    rewrite dd_get_insert, decide_True by reflexivity.
    apply elem_of_union; left; apply elem_of_singleton; reflexivity. }
  destruct (counted_not_outstanding t1 p o Hp1) as (Hin2 & _ & _).
  unfold Strategy_submit. unfold bind at 1, get_state. rewrite Hsh.
  unfold try_except at 1. unfold bind at 1, call.
  destruct (decoder self (payload msg)) as [[res|]|e] eqn:Hdec.
  - rewrite Hval. unfold bind at 1.
    destruct (grouping_fn self res) as [group_key|e] eqn:Hgrp.
    + unfold on_pool at 1. rewrite submit_assigned_unfold by exact Hp. cbv zeta.
      cbn [partition offset]. fold t1.
      set (pool1 := with_tracker (queue_pool self) t1).
      assert (∀ pool2 : pool_state,
                offset_tracker pool2 = t1 →
                ∃ self',
                  (on_pool (on_tracker (add_offset p o)) ;;
                   on_pool (on_tracker (complete_offset p o)))%py (over self pool2)
                  = (Ok tt, self')
                  ∧ o ∈ dd_get (all_offsets (offset_tracker (queue_pool self'))) p) as Hrec.
      { intros pool2 Ht. eexists. split.
        - apply add_complete_on_pool. cbn [queue_pool]. rewrite Ht. exact Hp1.
        - cbn [queue_pool offset_tracker with_tracker]. rewrite Ht. exact Hin2. }
      case_decide.
      { cbn [is_Exception]. apply Hrec. reflexivity. }
      destruct (py_index _ _) as [i|].
      2:{ cbn [is_Exception]. apply Hrec. reflexivity. }
      unfold on_queue. cbn [queues pool1 with_tracker].
      destruct (queues (queue_pool self) !! i) as [q|].
      2:{ cbn [is_Exception]. apply Hrec. reflexivity. }
      unfold queue_put. destruct (is_shutdown q).
      { cbn [is_Exception]. apply Hrec. reflexivity. }
      eexists. split; [reflexivity|].
      cbn [queue_pool offset_tracker with_queues pool1 with_tracker]. exact Hin1.
    + rewrite (Hgexc res e eq_refl Hgrp).
      eexists. split; [apply add_complete_on_pool; exact Hp|].
      cbn [queue_pool offset_tracker with_tracker]. exact Hin.
  - rewrite Hval. unfold try_except.
    rewrite add_complete_on_pool by exact Hp.
    eexists. split; [reflexivity|].
    cbn [queue_pool offset_tracker with_tracker]. exact Hin.
  - rewrite (Hdexc e eq_refl), Hval.
    eexists. split; [apply add_complete_on_pool; exact Hp|].
    cbn [queue_pool offset_tracker with_tracker]. exact Hin.
Qed.


(** X28.  After [close], every [submit] raises [MessageRejected]
    before the decoder is called, and leaves the pool, its queues and
    its tracker untouched. *)
Theorem close_then_submit_rejected (self : strategy) (msg : raw_message) :
  let self1 := snd (Strategy_close self) in
  Strategy_close self = (Ok tt, self1)
  ∧ Strategy_submit hash msg self1 = (Raise MessageRejected, self1)
  ∧ queue_pool self1 = queue_pool self.
Proof. cbv zeta. repeat split. Qed.

Lemma wait_zero_times_out (fuel : nat) (clock : nat -> Z) (pool : pool_state) :
  fuel ≠ O → clock O <= clock 1%nat →
  wait_until_empty fuel clock 0 pool = (Ok (Some false), pool).
Proof.
  intros Hfuel Hclock. destruct fuel as [|fuel]; [contradiction|].
  unfold wait_until_empty. cbn [wait_loop].
  rewrite decide_False by lia. reflexivity.
Qed.

(** X29.  [join] without a timeout and [terminate] both run
    [flush(timeout=0)] and return nothing.  With a clock that does not
    run backwards that flush takes the forced path, reporting [False],
    even when every queue is already empty: what is queued is
    discarded and the tracker is cleared.  [terminate] also sets the
    shutdown event, [join] leaves it as it is. *)
Theorem join_and_terminate_force_flush (fuel : nat) (clock : nat -> Z)
    (self : strategy) :
  fuel ≠ O → clock O <= clock 1%nat →
  ∃ pool',
    flush fuel clock (Some 0) (queue_pool self) = (Ok (Some false), pool')
    ∧ Strategy_join fuel clock None self = (Ok (Some tt), over self pool')
    ∧ Strategy_terminate fuel clock self
      = (Ok (Some tt), mkStrategy pool' (decoder self) (grouping_fn self) true)
    ∧ offset_tracker pool' = OffsetTracker_init
    ∧ queues pool' = map emptied (queues (queue_pool self)).
Proof.
  intros Hfuel Hclock.
  pose proof (wait_zero_times_out fuel clock (queue_pool self) Hfuel Hclock) as Hwait.
  destruct (flush_forced_spec fuel clock (queue_pool self)) as (pool' & Hrun & Ht & Hqs & _).
  rewrite <- (flush_after_timeout _ _ _ _ Hwait) in Hrun.
  exists pool'. split; [exact Hrun|].
  unfold Strategy_join, Strategy_terminate, bind, on_pool, ret.
  cbn [default queue_pool decoder grouping_fn shutdown_event].
  rewrite Hrun. auto.
Qed.

End StrategyMore.

(** * The further properties on concrete calls *)

Lemma ex_tracker_locks : 0%nat ∈ partition_locks ex_tracker.
Proof. apply (bool_decide_eq_true_1 _). vm_compute. reflexivity. Qed.

Lemma ex_tracker_admitted : dd_get (all_offsets ex_tracker) 0%nat = {[5; 6; 7; 9]}.
Proof. vm_compute. reflexivity. Qed.

Lemma add_then_complete_witness :
  let st2 := snd (complete_offset 0%nat 8 (snd (add_offset 0%nat 8 ex_tracker))) in
  dd_get (all_offsets st2) 0%nat = {[8]} ∪ dd_get (all_offsets ex_tracker) 0%nat
  ∧ dd_get (outstanding st2) 0%nat = dd_get (outstanding ex_tracker) 0%nat ∖ {[8]}.
Proof.
  destruct (add_then_complete ex_tracker 0%nat 8 ex_tracker_locks)
    as (_ & _ & Ha & Ho & _).
  split; [exact Ha | exact Ho].
Defined.

Lemma other_partitions_untouched_witness :
  committable_at (snd (add_offset 1%nat 4 ex_tracker2)) 0%nat = committable_at ex_tracker2 0%nat
  ∧ committable_at ex_tracker2 0%nat = Some 5.
Proof.
  destruct (other_partitions_untouched ex_tracker2 1%nat 0%nat 4) as (Ha & _ & _).
  - lia.
  - split; [exact Ha | vm_compute; reflexivity].
Defined.

Lemma completion_only_advances_witness :
  ∃ v', committable_at (snd (complete_offset 0%nat 9 ex_tracker)) 0%nat = Some v' ∧ 7 <= v'.
Proof.
  apply (completion_only_advances ex_tracker 0%nat 0%nat 9 7).
  vm_compute. reflexivity.
Defined.

Lemma admitting_above_keeps_committable_witness :
  committable_at (snd (add_offset 0%nat 10 ex_tracker)) 0%nat = committable_at ex_tracker 0%nat.
Proof.
  apply (admitting_above_keeps_committable ex_tracker 0%nat 0%nat 10 ex_tracker_locks).
  intros a Ha. rewrite ex_tracker_admitted in Ha.
  repeat (apply elem_of_union in Ha as [Ha|Ha]);
    apply elem_of_singleton in Ha; lia.
Defined.

Lemma no_commit_at_or_below_mark_witness :
  committable_at (run_ops [OpCompleteOffset 0%nat 9] (snd (mark_committed 0%nat 7 ex_tracker)))
                 0%nat = Some 9
  ∧ 7 < 9.
Proof.
  assert (committable_at
            (run_ops [OpCompleteOffset 0%nat 9] (snd (mark_committed 0%nat 7 ex_tracker)))
            0%nat = Some 9) as Hv by (vm_compute; reflexivity).
  split; [exact Hv|].
  apply (no_commit_at_or_below_mark ex_tracker 0%nat 7 9 [OpCompleteOffset 0%nat 9]
           ex_tracker_locks).
  - repeat constructor.
  - exact Hv.
Defined.

Lemma ex_pool_queues (e : exn) :
  queues (ex_pool e) = [mkQueue [ex_item 0 5 1; ex_item 0 6 2] false].
Proof. vm_compute. reflexivity. Qed.

Lemma ex_pool_wf (e : exn) : pool_wf (ex_pool e).
Proof. split; [reflexivity | rewrite ex_pool_queues; reflexivity]. Qed.

Lemma ex_pool_open (e : exn) : lanes_open (ex_pool e).
Proof.
  intros i q. rewrite ex_pool_queues. destruct i as [|i]; cbn.
  - intros [= <-]. reflexivity.
  - destruct i; discriminate.
Qed.

Lemma ex_pool_assigned (e : exn) : 0%nat ∈ partition_locks (offset_tracker (ex_pool e)).
Proof. apply (bool_decide_eq_true_1 _). vm_compute. reflexivity. Qed.

Lemma ex_pool_lane (e : exn) (group_key : string) :
  queues (ex_pool e) !! lane_of ex_hash (ex_pool e) group_key
  = Some (mkQueue [ex_item 0 5 1; ex_item 0 6 2] false).
Proof. rewrite ex_pool_queues. reflexivity. Qed.

Lemma ex_raises_only_Exception (its : list (@WorkItem nat nat nat)) :
  raises_only_Exception (ex_pool ex_error) its.
Proof.
  intros it e _ Hcall.
  change (result_processor (ex_pool ex_error)) with (ex_processor ex_error) in Hcall.
  unfold ex_processor in Hcall. case_decide; [|discriminate].
  injection Hcall as <-. reflexivity.
Qed.

Lemma lane_index_in_range_witness :
  ∃ i q,
    get_queue_for_group ex_hash "a" (ex_pool ex_error) = (Ok i, ex_pool ex_error)
    ∧ 0 <= i < num_queues (ex_pool ex_error)
    ∧ py_index (length (queues (ex_pool ex_error))) i = Some (Z.to_nat i)
    ∧ queues (ex_pool ex_error) !! Z.to_nat i = Some q.
Proof. exact (lane_index_in_range ex_hash (ex_pool ex_error) "a" (ex_pool_wf _)). Defined.

Lemma submit_assigned_cases_witness :
  ∃ pool',
    FixedQueuePool_submit ex_hash "a" (ex_item 0 7 3) (ex_pool ex_error) = (Ok tt, pool')
    ∧ queues pool'
      = [mkQueue [ex_item 0 5 1; ex_item 0 6 2; ex_item 0 7 3] false].
Proof.
  destruct (submit_assigned_cases ex_hash (ex_pool ex_error) "a" (ex_item 0 7 3)
              (ex_pool_assigned _))
    as [(i & q & Hq & Hsh & Hrun)|(e & He & Hrun)].
  - eexists. split; [exact Hrun|].
    cbn [queues with_queues]. rewrite ex_pool_queues in Hq |- *.
    destruct i as [|[|i]]; try discriminate. injection Hq as <-. reflexivity.
  - exfalso.
    assert (fst (FixedQueuePool_submit ex_hash "a" (ex_item 0 7 3) (ex_pool ex_error))
            = Raise e) as Hfst by (rewrite Hrun; reflexivity).
    vm_compute in Hfst. discriminate.
Defined.

Lemma submit_enqueues_on_its_lane_witness :
  ∃ pool',
    FixedQueuePool_submit ex_hash "a" (ex_item 0 7 3) (ex_pool ex_error) = (Ok tt, pool')
    ∧ total_items pool' = total_items (ex_pool ex_error) + 1
    ∧ 7 ∈ dd_get (outstanding (offset_tracker pool')) 0%nat.
Proof.
  destruct (submit_enqueues_on_its_lane ex_hash (ex_pool ex_error) "a" (ex_item 0 7 3) _
              (ex_pool_wf _) (ex_pool_assigned _) (ex_pool_lane _ _) eq_refl)
    as (pool' & Hrun & _ & _ & _ & Hout & Htot).
  exists pool'. split; [exact Hrun|]. split; [exact Htot | exact Hout].
Defined.

Lemma lanes_keep_submission_order_witness :
  queues (run_pool_ops ex_hash (submit_all ex_subs) (ex_pool ex_error)) !! 0%nat
  = Some (mkQueue [ex_item 0 5 1; ex_item 0 6 2; ex_item 0 7 3; ex_item 0 9 5] false).
Proof.
  rewrite (lanes_keep_submission_order ex_hash ex_subs (ex_pool ex_error) 0 _
             (ex_pool_wf _) (ex_pool_open _) (ex_pool_lane _ "a")).
  vm_compute. reflexivity.
Defined.

Lemma worker_processes_in_submission_order_witness :
  ∃ pool',
    worker_run 10 0 false (run_pool_ops ex_hash (submit_all ex_subs) (ex_pool ex_error))
    = (Ok (Some Blocked), pool')
    ∧ log pool' = worker_events 0 [ex_item 0 5 1; ex_item 0 6 2; ex_item 0 7 3; ex_item 0 9 5].
Proof.
  destruct (worker_processes_in_submission_order ex_hash ex_subs (ex_pool ex_error) 0 10 _
              (ex_pool_wf _) (ex_pool_open _) (ex_pool_lane _ "a"))
    as (pool' & Hrun & Hlog & _).
  - apply ex_raises_only_Exception.
  - vm_compute. lia.
  - exists pool'. split; [exact Hrun|]. rewrite Hlog. vm_compute. reflexivity.
Defined.

Lemma ex_closed_pool_wf : pool_wf ex_closed_pool.
Proof. split; reflexivity. Qed.

Lemma ex_closed_pool_lane :
  queues ex_closed_pool !! lane_of ex_hash ex_closed_pool "a"
  = Some (mkQueue [ex_item 0 5 1; ex_item 0 6 2] true).
Proof. vm_compute. reflexivity. Qed.

Lemma ex_closed_pool_assigned : 0%nat ∈ partition_locks (offset_tracker ex_closed_pool).
Proof. apply (bool_decide_eq_true_1 _). vm_compute. reflexivity. Qed.

Lemma submit_to_closed_lane_witness :
  ∃ pool',
    FixedQueuePool_submit ex_hash "a" (ex_item 0 7 3) ex_closed_pool
    = (Raise QueueShutDown, pool')
    ∧ queues pool' = queues ex_closed_pool
    ∧ 7 ∈ dd_get (outstanding (offset_tracker pool')) 0%nat.
Proof.
  destruct (submit_to_closed_lane ex_hash ex_closed_pool "a" (ex_item 0 7 3) _
              ex_closed_pool_wf ex_closed_pool_assigned ex_closed_pool_lane eq_refl)
    as (pool' & Hrun & Hqs & _ & Hout).
  exists pool'. auto.
Defined.

Lemma submit_without_lanes_witness :
  ∃ pool',
    FixedQueuePool_submit ex_hash "a" (ex_item 0 7 3) ex_no_lanes_pool
    = (Raise ZeroDivisionError, pool')
    ∧ 7 ∈ dd_get (outstanding (offset_tracker pool')) 0%nat.
Proof.
  destruct (submit_without_lanes ex_hash ex_no_lanes_pool "a" (ex_item 0 7 3))
    as (pool' & Hrun & _ & Hout).
  - reflexivity.
  - apply (bool_decide_eq_true_1 _). vm_compute. reflexivity.
  - exists pool'. auto.
Defined.

Lemma worker_leaves_nothing_outstanding_witness :
  (5 ∈ dd_get (outstanding (offset_tracker (ex_pool ex_error))) 0%nat)
  ∧ (5 ∉ dd_get (outstanding (offset_tracker ex_processed_pool)) 0%nat).
Proof.
  split; [apply (bool_decide_eq_true_1 _); vm_compute; reflexivity|].
  apply (worker_leaves_nothing_outstanding 3 0 (ex_pool ex_error) _ (ex_item 0 5 1)
           (ex_pool_lane _ "a")).
  - apply ex_raises_only_Exception.
  - cbn. lia.
  - left.
  - apply ex_pool_assigned.
Defined.

Lemma ex_processed_committable :
  get_committable_offsets (offset_tracker ex_processed_pool)
  = (Ok {[0%nat := 6]}, snd (get_committable_offsets (offset_tracker ex_processed_pool))).
Proof.
  apply injective_projections; [vm_compute; reflexivity | cbn [snd]; reflexivity].
Qed.

Lemma ex_processed_tracked : tracked_assigned (offset_tracker ex_processed_pool).
Proof.
  intros p [x Hx].
  assert (all_offsets (offset_tracker ex_processed_pool) = {[0%nat := {[5; 6]}]}) as E
    by (vm_compute; reflexivity).
  rewrite E in Hx. apply lookup_singleton_Some in Hx as [<- _].
  apply (bool_decide_eq_true_1 _). vm_compute. reflexivity.
Qed.

Lemma ex_failing_committable :
  get_committable_offsets (offset_tracker ex_failing_pool)
  = (Ok {[0%nat := 6]}, snd (get_committable_offsets (offset_tracker ex_failing_pool))).
Proof.
  apply injective_projections; [vm_compute; reflexivity | cbn [snd]; reflexivity].
Qed.

Lemma ex_failing_commit_function : commit_function ex_failing_pool = Some ex_failing_commit.
Proof. reflexivity. Qed.

Lemma ex_processed_commit_function : commit_function ex_processed_pool = Some ex_commit.
Proof. vm_compute. reflexivity. Qed.

Lemma commit_failure_keeps_checkpoints_witness :
  ∃ pool',
    commit_iteration ex_failing_pool = (Ok tt, pool')
    ∧ log pool' = log ex_failing_pool ++ [EvCommitted {[0%nat := 6]}]
    ∧ committable_at (offset_tracker pool') 0%nat = Some 6.
Proof.
  destruct (commit_failure_keeps_checkpoints ex_failing_pool ex_failing_commit
              {[0%nat := 6]} _ (OtherException "CommitFailed")
              ex_failing_commit_function ex_failing_committable)
    as (pool' & Hrun & Hlog & _ & Hm).
  - apply map_non_empty_singleton.
  - reflexivity.
  - reflexivity.
  - exists pool'. split; [exact Hrun|]. split; [exact Hlog|].
    rewrite Hm. apply lookup_singleton_eq.
Defined.

Lemma commit_success_records_checkpoints_witness :
  ∃ pool',
    commit_iteration ex_processed_pool = (Ok tt, pool')
    ∧ last_committed_of (offset_tracker pool') 0%nat = 6
    ∧ last_committed_of (offset_tracker ex_processed_pool) 0%nat = -1.
Proof.
  destruct (commit_success_records_checkpoints ex_processed_pool ex_commit {[0%nat := 6]} _
              ex_processed_tracked ex_processed_commit_function ex_processed_committable)
    as (pool' & Hrun & Hlc & _).
  - apply map_non_empty_singleton.
  - reflexivity.
  - exists pool'. split; [exact Hrun|]. split; [|vm_compute; reflexivity].
    rewrite Hlc, lookup_singleton_eq. reflexivity.
Defined.

Lemma wait_until_empty_on_empty_pool_witness :
  wait_until_empty 1 Z.of_nat 0 ex_processed_pool = (Ok (Some false), ex_processed_pool)
  ∧ wait_until_empty 1 Z.of_nat 5 ex_processed_pool = (Ok (Some true), ex_processed_pool).
Proof.
  split.
  - rewrite (wait_until_empty_on_empty_pool 1 Z.of_nat 0 ex_processed_pool);
      [reflexivity | vm_compute; reflexivity | discriminate].
  - rewrite (wait_until_empty_on_empty_pool 1 Z.of_nat 5 ex_processed_pool);
      [reflexivity | vm_compute; reflexivity | discriminate].
Defined.

Lemma flush_then_reassign_witness :
  ∃ pool1,
    flush 1 Z.of_nat None (ex_pool ex_error) = (Ok (Some false), pool1)
    ∧ FixedQueuePool_submit ex_hash "a" (ex_item 0 7 3) pool1 = (Ok tt, pool1)
    ∧ offset_tracker (snd (FixedQueuePool_update_assignments {[1%nat]} ex_commit pool1))
      = mkTracker ∅ ∅ ∅ {[1%nat]}
    ∧ total_items (snd (FixedQueuePool_update_assignments {[1%nat]} ex_commit pool1)) = 0.
Proof.
  destruct (flush_forced_spec 1 Z.of_nat (ex_pool ex_error)) as (pool1 & Hrun & _).
  destruct (flush_then_reassign ex_hash 1 Z.of_nat None (ex_pool ex_error) pool1 false
              {[1%nat]} ex_commit Hrun)
    as (Hdrop & Ht & _ & _ & Hz).
  exists pool1. split; [exact Hrun|].
  split; [apply Hdrop|]. split; [exact Ht | exact (Hz eq_refl)].
Defined.

Lemma ex_strategy_assigned (pool : @FixedQueuePool nat _ _ nat nat) :
  partition_locks (offset_tracker pool) = {[0%nat]} →
  0%nat ∈ partition_locks (offset_tracker (queue_pool (ex_strategy_over pool))).
Proof. intros E. cbn [queue_pool ex_strategy_over]. rewrite E. apply elem_of_singleton. reflexivity. Qed.






Lemma submit_on_assigned_returns_witness :
  let self := ex_strategy_over ex_no_lanes_pool in
  ∃ self',
    Strategy_submit ex_hash (ex_message_with 2 0 7) self = (Ok tt, self')
    ∧ 7 ∈ dd_get (all_offsets (offset_tracker (queue_pool self'))) 0%nat.
Proof.
  intros self.
  apply (submit_on_assigned_returns ex_hash self (ex_message_with 2 0 7) 0%nat 7).
  - reflexivity.
  - reflexivity.
  - apply ex_strategy_assigned. vm_compute. reflexivity.
  - intros e He. cbn in He. discriminate.
  - intros res e _ He. cbn in He. discriminate.
Defined.


Lemma join_and_terminate_force_flush_witness :
  let self := ex_strategy_over ex_processed_pool in
  total_items (queue_pool self) = 0
  ∧ ∃ pool',
      flush 1 Z.of_nat (Some 0) (queue_pool self) = (Ok (Some false), pool')
      ∧ Strategy_join 1 Z.of_nat None self
        = (Ok (Some tt), mkStrategy pool' (decoder self) (grouping_fn self) false)
      ∧ Strategy_terminate 1 Z.of_nat self
        = (Ok (Some tt), mkStrategy pool' (decoder self) (grouping_fn self) true)
      ∧ offset_tracker pool' = OffsetTracker_init.
Proof.
  intros self. split; [vm_compute; reflexivity|].
  destruct (join_and_terminate_force_flush 1 Z.of_nat self)
    as (pool' & Hf & Hj & Ht & Htr & _).
  - discriminate.
  - cbn. lia.
  - exists pool'. auto.
Defined.
